(** * Reade: word-timing lookup and highlight/scroll coupling

    A shallow embedding of the audio-position-to-word synchronisation code
    of the two Reade clients:

    - the mobile reader screen ([PdfViewerScreen]): [findWordIndex], the
      word-tracking effect, the auto-scroll effect, [handleRead],
      [closeAudio];
    - the web home page ([Home]): [findWordIndex], [handleTimeUpdate], the
      auto-scroll effect, [handleRead], [handleStop].

    Conventions.
    - Times, positions and pixel offsets are JavaScript numbers.  The code
      only compares, adds, subtracts and scales them, so finite numbers are
      modelled as rationals [Q] (every finite double is one).
    - Array indices are integers [Z]; [a >> b] first converts its left
      operand to a signed 32-bit integer, which is written out in [sar].
    - Reading a property of [undefined] raises a [TypeError]; a loop is run
      with a budget of iterations.  Both are visible in [outcome].
    - A React state setter and a ref assignment are both modelled as a
      field update of the component state; calls that leave the component
      (publishing the current word, scroll commands, player commands) are
      collected in a list of [effect]s.
    - The component states hold the cells that the word tracking, the
      scrolling and the closing of a segment read or write.  Cells about
      the library, the generation progress, the status line and the start
      page are left out, with the statements that only write them. *)

From Stdlib Require Import ZArith QArith Qabs Lqa Lia Bool String.
From Stdlib Require Import Qround Ascii DecimalString DecimalZ Permutation.
From stdpp Require Import base list relations.

Local Open Scope Z_scope.

(** ** JavaScript numbers *)

Module JS.

(** [ToInt32] of ECMAScript on an integral number. *)
Definition ToInt32 (z : Z) : Z :=
  let m := z mod 2 ^ 32 in
  if m <? 2 ^ 31 then m else m - 2 ^ 32.

(** [z >> k], the sign-propagating right shift. *)
Definition sar (z k : Z) : Z := Z.shiftr (ToInt32 z) k.

(** [a < b] and [a >= b] on finite numbers. *)
Definition lt (a b : Q) : bool := negb (Qle_bool b a).
Definition ge (a b : Q) : bool := Qle_bool b a.
Definition gt (a b : Q) : bool := lt b a.

(** [a === b] on finite numbers. *)
Definition strict_eq (a b : Q) : bool := Qeq_bool a b.

(** [Math.max(a, b)] and [Math.abs(a)]. *)
Definition Math_max (a b : Q) : Q := if lt a b then b else a.
Definition Math_abs (a : Q) : Q := Qabs a.

(** The result of running a piece of code: a value, an uncaught
    [TypeError], or an exhausted iteration budget. *)
Inductive outcome (A : Type) : Type :=
| Ret (a : A)
| Throw
| OutOfFuel.
Arguments Ret {A} a.
Arguments Throw {A}.
Arguments OutOfFuel {A}.

Definition bind {A B} (c : outcome A) (k : A -> outcome B) : outcome B :=
  match c with
  | Ret a => k a
  | Throw => Throw
  | OutOfFuel => OutOfFuel
  end.

(** [arr[i]]: [None] stands for [undefined]. *)
Definition item {A} (arr : list A) (i : Z) : option A :=
  if i <? 0 then None else arr !! Z.to_nat i.

(** [arr.length]. *)
Definition len {A} (arr : list A) : Z := Z.of_nat (length arr).

(** [arr[i].field]: reading through [undefined] throws. *)
Definition read {A} (arr : list A) (i : Z) : outcome A :=
  match item arr i with
  | Some a => Ret a
  | None => Throw
  end.

End JS.

Import JS.

Notation "'let*' x ':=' c 'in' k" := (bind c (fun x => k))
  (at level 10, x name, c at level 100, k at level 200).

(** ** Data shared by both clients *)

(** [interface WordTiming { word: string; start: number; end: number }],
    declared with the same shape in both clients. *)
Record WordTiming : Type := {
  word : string;
  start : Q;
  end_ : Q;
}.

(** The part of the text-to-speech response that the readers consume;
    [audio_url] is the address already passed through [api.getAudioUrl]. *)
Record TtsData : Type := {
  word_timings : list WordTiming;
  pages_read : list Z;
  audio_url : string;
}.

(** A rendered word [<span>] of the web reader. *)
Inductive Element : Type := Span (id : nat).

(** What leaves a component. *)
Inductive effect : Type :=
| SetCurrentWordIndex (i : Z)        (* the published current-word state is written *)
| ScrollTo (y : Q) (animated : bool) (* mobile: scrollView.scrollTo({ y, animated }) *)
| ScrollIntoView (el : Element)      (* web: el.scrollIntoView({ smooth, center }) *)
| PlayerPause
| PlayerRewind.                      (* web: audio.currentTime = 0 *)

(** The published index changes contained in a list of effects. *)
Fixpoint published (es : list effect) : list Z :=
  match es with
  | [] => []
  | SetCurrentWordIndex i :: es' => i :: published es'
  | _ :: es' => published es'
  end.

(** A number of loop iterations that the binary search never exceeds on an
    array of the given length. *)
Definition iterations {A} (arr : list A) : nat := S (Nat.log2 (length arr)).

(** ** The mobile client *)

Module Mobile.

(** The [while (lo <= hi)] loop of [findWordIndex]. *)
Fixpoint search (fuel : nat) (timings : list WordTiming) (posMs : Q)
    (lo hi : Z) : outcome Z :=
  if lo <=? hi then
    match fuel with
    | O => OutOfFuel
    | S fuel' =>
      let mid := sar (lo + hi) 1 in
      let* m := read timings mid in
      if ge posMs (start m) && lt posMs (end_ m) then Ret mid
      else if lt posMs (start m) then search fuel' timings posMs lo (mid - 1)
      else search fuel' timings posMs (mid + 1) hi
    end
  else Ret (Z.max 0 (lo - 1)).

(** [findWordIndex] with an explicit iteration budget. *)
Definition findWordIndex_fuel (fuel : nat) (timings : list WordTiming)
    (posMs : Q) : outcome Z :=
  if len timings =? 0 then Ret (-1) else
  let lo := 0 in
  let hi := len timings - 1 in
  let* first := read timings 0 in
  if lt posMs (start first) then Ret (-1) else
  let* last := read timings hi in
  if ge posMs (start last) then Ret hi else
  search fuel timings posMs lo hi.

Definition findWordIndex (timings : list WordTiming) (posMs : Q) : outcome Z :=
  findWordIndex_fuel (iterations timings) timings posMs.

(** The state cells of [PdfViewerScreen] that the word tracking, the
    auto-scroll and [closeAudio] read or write. *)
Record State : Type := {
  wordTimings : list WordTiming;     (* useState<WordTiming[]>([]) *)
  wordTimingsRef : list WordTiming;  (* useRef<WordTiming[]>([]) *)
  currentWordRef : Z;                (* useRef(-1) *)
  currentWordIndex : Z;              (* useState(-1) *)
  showReader : bool;                 (* useState(false) *)
  wordYPositions : option (list Q);  (* useRef<Float64Array | null>(null) *)
  lastScrollY : Q;                   (* useRef(0) *)
  audioUri : option string;          (* useState<string | null>(null) *)
  audioLoaded : bool;                (* useState(false) *)
  pagesRead : list Z;                (* useState<number[]>([]) *)
}.

Definition initial : State :=
  {| wordTimings := []; wordTimingsRef := []; currentWordRef := -1;
     currentWordIndex := -1; showReader := false; wordYPositions := None;
     lastScrollY := 0; audioUri := None; audioLoaded := false;
     pagesRead := [] |}.

(** [currentWordRef.current = idx; setCurrentWordIndex(idx)]. *)
Definition publish (idx : Z) (st : State) : State :=
  {| wordTimings := wordTimings st; wordTimingsRef := wordTimingsRef st;
     currentWordRef := idx; currentWordIndex := idx;
     showReader := showReader st; wordYPositions := wordYPositions st;
     lastScrollY := lastScrollY st; audioUri := audioUri st;
     audioLoaded := audioLoaded st; pagesRead := pagesRead st |}.

Definition set_lastScrollY (y : Q) (st : State) : State :=
  {| wordTimings := wordTimings st; wordTimingsRef := wordTimingsRef st;
     currentWordRef := currentWordRef st;
     currentWordIndex := currentWordIndex st;
     showReader := showReader st; wordYPositions := wordYPositions st;
     lastScrollY := y; audioUri := audioUri st;
     audioLoaded := audioLoaded st; pagesRead := pagesRead st |}.

Definition set_wordYPositions (ps : option (list Q)) (st : State) : State :=
  {| wordTimings := wordTimings st; wordTimingsRef := wordTimingsRef st;
     currentWordRef := currentWordRef st;
     currentWordIndex := currentWordIndex st;
     showReader := showReader st; wordYPositions := ps;
     lastScrollY := lastScrollY st; audioUri := audioUri st;
     audioLoaded := audioLoaded st; pagesRead := pagesRead st |}.

(** [setShowReader(b)], as the "View PDF" and reader buttons call it. *)
Definition set_showReader (b : bool) (st : State) : State :=
  {| wordTimings := wordTimings st; wordTimingsRef := wordTimingsRef st;
     currentWordRef := currentWordRef st;
     currentWordIndex := currentWordIndex st;
     showReader := b; wordYPositions := wordYPositions st;
     lastScrollY := lastScrollY st; audioUri := audioUri st;
     audioLoaded := audioLoaded st; pagesRead := pagesRead st |}.

(** "Track word highlighting based on player position": the body of the
    effect that React runs when [position] (milliseconds) changes. *)
Definition trackWordEffect (st : State) (position : Q)
    : outcome (State * list effect) :=
  let timings := wordTimingsRef st in
  if len timings =? 0 then Ret (st, []) else
  let pos := position in
  let* idx := findWordIndex timings pos in
  if negb (idx =? currentWordRef st)
  then Ret (publish idx st, [SetCurrentWordIndex idx])
  else Ret (st, []).

(** "Handle playback finished", when [playerStatus.didJustFinish]. *)
Definition playbackFinishedEffect (st : State) : State * list effect :=
  (publish (-1) st, [SetCurrentWordIndex (-1)]).

(** The reader [ScrollView] carries [ref={scrollViewRef}] and is rendered
    when [showReader && wordTimings.length > 0]; the ref is attached
    exactly then. *)
Definition scrollViewRef (st : State) : bool :=
  showReader st && (0 <? len (wordTimings st)).

(** "Auto-scroll when word changes": the body of the effect that React
    runs when [currentWordIndex] or [showReader] changes. *)
Definition autoScrollEffect (SCREEN_HEIGHT : Q) (st : State)
    : State * list effect :=
  if (currentWordIndex st <? 0) || negb (showReader st) then (st, []) else
  match wordYPositions st with
  | None => (st, [])
  | Some positions =>
    if len positions <=? currentWordIndex st then (st, []) else
    match item positions (currentWordIndex st) with
    | None => (st, [])
    | Some targetY =>
      if strict_eq targetY 0 && (5 <? currentWordIndex st) then (st, []) else
      let scrollTarget := Math_max 0 (targetY - SCREEN_HEIGHT * 0.35)%Q in
      if gt (Math_abs (scrollTarget - lastScrollY st)%Q) 20 then
        (set_lastScrollY scrollTarget st,
         if scrollViewRef st then [ScrollTo scrollTarget true] else [])
      else (st, [])
    end
  end.

(** The scroll target that [autoScrollEffect] computes, when it gets as
    far as computing one. *)
Definition scrollTarget (SCREEN_HEIGHT : Q) (st : State) : option Q :=
  if (currentWordIndex st <? 0) || negb (showReader st) then None else
  match wordYPositions st with
  | None => None
  | Some positions =>
    if len positions <=? currentWordIndex st then None else
    match item positions (currentWordIndex st) with
    | None => None
    | Some targetY =>
      if strict_eq targetY 0 && (5 <? currentWordIndex st) then None else
      Some (Math_max 0 (targetY - SCREEN_HEIGHT * 0.35)%Q)
    end
  end.

(** [onLayout] of word [i]: records the measured vertical offset. *)
Definition onLayout (i : nat) (y : Q) (st : State) : State :=
  match wordYPositions st with
  | Some positions =>
    if (i <? length positions)%nat
    then set_wordYPositions (Some (<[i := y]> positions)) st
    else st
  | None => st
  end.

(** [handleRead], up to the [await]. *)
Definition handleRead_begin (st : State) : State * list effect :=
  ({| wordTimings := wordTimings st; wordTimingsRef := wordTimingsRef st;
      currentWordRef := -1; currentWordIndex := -1;
      showReader := false; wordYPositions := None;
      lastScrollY := 0; audioUri := audioUri st;
      audioLoaded := audioLoaded st; pagesRead := pagesRead st |},
   [SetCurrentWordIndex (-1)]).

(** [handleRead], after the text-to-speech request has resolved. *)
Definition handleRead_resolved (data : TtsData) (st : State) : State :=
  let timings := word_timings data in
  {| wordTimings := timings; wordTimingsRef := timings;
     currentWordRef := currentWordRef st;
     currentWordIndex := currentWordIndex st;
     showReader := showReader st;
     wordYPositions := Some (repeat 0%Q (length timings));
     lastScrollY := lastScrollY st; audioUri := audioUri st;
     audioLoaded := audioLoaded st; pagesRead := pages_read data |}.

(** [loadAndPlayAudio(url)], called from the timer that [handleRead] sets. *)
Definition loadAndPlayAudio (url : string) (st : State) : State :=
  {| wordTimings := wordTimings st; wordTimingsRef := wordTimingsRef st;
     currentWordRef := currentWordRef st;
     currentWordIndex := currentWordIndex st;
     showReader := true; wordYPositions := wordYPositions st;
     lastScrollY := lastScrollY st; audioUri := Some url;
     audioLoaded := true; pagesRead := pagesRead st |}.

(** A successful [handleRead] from start to end. *)
Definition handleRead (data : TtsData) (st : State) : State :=
  loadAndPlayAudio (audio_url data)
    (handleRead_resolved data (fst (handleRead_begin st))).

Definition closeAudio (st : State) : State * list effect :=
  ({| wordTimings := []; wordTimingsRef := [];
      currentWordRef := -1; currentWordIndex := -1;
      showReader := false; wordYPositions := None;
      lastScrollY := 0; audioUri := None;
      audioLoaded := false; pagesRead := [] |},
   [PlayerPause; SetCurrentWordIndex (-1)]).

(** What can happen to the component: its effects, its callbacks and its
    handlers, in any order. *)
Inductive step (SCREEN_HEIGHT : Q) : State -> State -> Prop :=
| step_track st position st' es :
    trackWordEffect st position = Ret (st', es) -> step SCREEN_HEIGHT st st'
| step_finished st :
    step SCREEN_HEIGHT st (fst (playbackFinishedEffect st))
| step_scroll st :
    step SCREEN_HEIGHT st (fst (autoScrollEffect SCREEN_HEIGHT st))
| step_layout i y st :
    step SCREEN_HEIGHT st (onLayout i y st)
| step_show b st :
    step SCREEN_HEIGHT st (set_showReader b st)
| step_read_begin st :
    step SCREEN_HEIGHT st (fst (handleRead_begin st))
| step_read_resolved data st :
    step SCREEN_HEIGHT st (handleRead_resolved data st)
| step_play url st :
    step SCREEN_HEIGHT st (loadAndPlayAudio url st)
| step_close st :
    step SCREEN_HEIGHT st (fst (closeAudio st)).

Definition reachable (SCREEN_HEIGHT : Q) (st : State) : Prop :=
  rtc (step SCREEN_HEIGHT) initial st.

(** The cells that go together: the ref and the state of the published
    index, the ref and the state of the timings, and one table entry per
    word. *)
Definition coherent (st : State) : Prop :=
  currentWordRef st = currentWordIndex st /\
  wordTimingsRef st = wordTimings st /\
  forall positions, wordYPositions st = Some positions ->
    length positions = length (wordTimings st).

(** Feeding a list of positions to the word-tracking effect, collecting
    the effects. *)
Fixpoint trackAll (st : State) (positions : list Q)
    : outcome (State * list effect) :=
  match positions with
  | [] => Ret (st, [])
  | p :: ps =>
    let* r := trackWordEffect st p in
    let* r' := trackAll (fst r) ps in
    Ret (fst r', snd r ++ snd r')
  end.

End Mobile.

(** ** The web client *)

Module Web.

Fixpoint search (fuel : nat) (timings : list WordTiming) (posMs : Q)
    (lo hi : Z) : outcome Z :=
  if lo <=? hi then
    match fuel with
    | O => OutOfFuel
    | S fuel' =>
      let mid := sar (lo + hi) 1 in
      let* m := read timings mid in
      if ge posMs (start m) && lt posMs (end_ m) then Ret mid
      else if lt posMs (start m) then search fuel' timings posMs lo (mid - 1)
      else search fuel' timings posMs (mid + 1) hi
    end
  else Ret (Z.max 0 (lo - 1)).

Definition findWordIndex_fuel (fuel : nat) (timings : list WordTiming)
    (posMs : Q) : outcome Z :=
  if len timings =? 0 then Ret (-1) else
  let lo := 0 in
  let hi := len timings - 1 in
  let* first := read timings 0 in
  if lt posMs (start first) then Ret (-1) else
  let* last := read timings hi in
  if ge posMs (start last) then Ret hi else
  search fuel timings posMs lo hi.

Definition findWordIndex (timings : list WordTiming) (posMs : Q) : outcome Z :=
  findWordIndex_fuel (iterations timings) timings posMs.

(** The state cells of [Home] that the word tracking, the auto-scroll and
    [handleStop] read or write. *)
Record State : Type := {
  wordTimings : list WordTiming;     (* useState<WordTiming[]>([]) *)
  currentWordIndex : Z;              (* useState(-1) *)
  pagesRead : list Z;                (* useState<number[]>([]) *)
  showReader : bool;                 (* useState(false) *)
  wordRefs : list (option Element);  (* useRef<(HTMLSpanElement | null)[]>([]) *)
  audioUrl : option string;          (* useState<string | null>(null) *)
  isPlaying : bool;                  (* useState(false) *)
  audioCurrentTime : Q;              (* useState(0), seconds *)
}.

Definition initial : State :=
  {| wordTimings := []; currentWordIndex := -1; pagesRead := [];
     showReader := false; wordRefs := []; audioUrl := None;
     isPlaying := false; audioCurrentTime := 0 |}.

Definition set_currentWordIndex (idx : Z) (st : State) : State :=
  {| wordTimings := wordTimings st; currentWordIndex := idx;
     pagesRead := pagesRead st; showReader := showReader st;
     wordRefs := wordRefs st; audioUrl := audioUrl st;
     isPlaying := isPlaying st; audioCurrentTime := audioCurrentTime st |}.

Definition set_audioCurrentTime (t : Q) (st : State) : State :=
  {| wordTimings := wordTimings st; currentWordIndex := currentWordIndex st;
     pagesRead := pagesRead st; showReader := showReader st;
     wordRefs := wordRefs st; audioUrl := audioUrl st;
     isPlaying := isPlaying st; audioCurrentTime := t |}.

Definition set_wordRefs (refs : list (option Element)) (st : State) : State :=
  {| wordTimings := wordTimings st; currentWordIndex := currentWordIndex st;
     pagesRead := pagesRead st; showReader := showReader st;
     wordRefs := refs; audioUrl := audioUrl st;
     isPlaying := isPlaying st; audioCurrentTime := audioCurrentTime st |}.

(** [handleTimeUpdate]; [audio] is [audioRef.current], given by the
    [currentTime] (seconds) of the audio element when there is one. *)
Definition handleTimeUpdate (audio : option Q) (st : State)
    : outcome (State * list effect) :=
  match audio with
  | None => Ret (st, [])
  | Some currentTime =>
    if len (wordTimings st) =? 0 then Ret (st, []) else
    let posMs := (currentTime * 1000)%Q in
    let* idx := findWordIndex (wordTimings st) posMs in
    let r := if negb (idx =? currentWordIndex st)
             then (set_currentWordIndex idx st, [SetCurrentWordIndex idx])
             else (st, []) in
    Ret (set_audioCurrentTime currentTime (fst r), snd r)
  end.

(** [onEnded] of the audio element, as far as the highlight goes. *)
Definition onEnded (st : State) : State * list effect :=
  ({| wordTimings := wordTimings st; currentWordIndex := -1;
      pagesRead := pagesRead st; showReader := showReader st;
      wordRefs := wordRefs st; audioUrl := audioUrl st;
      isPlaying := false; audioCurrentTime := audioCurrentTime st |},
   [SetCurrentWordIndex (-1)]).

(** A bounding client rectangle, as far as the code reads it. *)
Record Rect : Type := { rect_top : Q; rect_height : Q }.

(** What the document answers to the layout queries of the auto-scroll:
    [readerRef.current] with its rectangle, and the rectangle of each
    word element. *)
Record Layout : Type := {
  readerRef : option Rect;
  rectOf : Element -> Rect;
}.

(** "Auto-scroll reader to current word": the body of the effect that
    React runs when [currentWordIndex] or [showReader] changes. *)
Definition autoScrollEffect (doc : Layout) (st : State) : list effect :=
  if (currentWordIndex st <? 0) || negb (showReader st) then [] else
  match item (wordRefs st) (currentWordIndex st), readerRef doc with
  | Some (Some el), Some containerRect =>
    let elRect := rectOf doc el in
    let midTop := (rect_top containerRect + rect_height containerRect * 0.3)%Q in
    let midBot := (rect_top containerRect + rect_height containerRect * 0.7)%Q in
    if lt (rect_top elRect) midTop || gt (rect_top elRect) midBot
    then [ScrollIntoView el]
    else []
  | _, _ => []
  end.

(** The callback ref of word [i]: [wordRefs.current[i] = el].  A write
    past the end extends a JavaScript array. *)
Definition refCallback (i : nat) (el : option Element) (st : State) : State :=
  let refs := wordRefs st in
  set_wordRefs (<[i := el]> (refs ++ repeat None (S i - length refs))) st.

(** [handleRead], up to the [await]. *)
Definition handleRead_begin (st : State) : State * list effect :=
  ({| wordTimings := []; currentWordIndex := -1; pagesRead := [];
      showReader := false; wordRefs := wordRefs st; audioUrl := audioUrl st;
      isPlaying := isPlaying st; audioCurrentTime := audioCurrentTime st |},
   [SetCurrentWordIndex (-1)]).

(** [handleRead], after the text-to-speech request has resolved. *)
Definition handleRead_resolved (data : TtsData) (st : State) : State :=
  let timings := word_timings data in
  {| wordTimings := timings; currentWordIndex := currentWordIndex st;
     pagesRead := pages_read data; showReader := true;
     wordRefs := repeat None (length timings);
     audioUrl := Some (audio_url data);
     isPlaying := isPlaying st; audioCurrentTime := audioCurrentTime st |}.

(** A successful [handleRead] from start to end. *)
Definition handleRead (data : TtsData) (st : State) : State :=
  handleRead_resolved data (fst (handleRead_begin st)).

(** [handleStop]; [audio] tells whether [audioRef.current] is set. *)
Definition handleStop (audio : bool) (st : State) : State * list effect :=
  ({| wordTimings := []; currentWordIndex := -1; pagesRead := [];
      showReader := false; wordRefs := wordRefs st; audioUrl := None;
      isPlaying := false; audioCurrentTime := audioCurrentTime st |},
   (if audio then [PlayerPause; PlayerRewind] else [])
     ++ [SetCurrentWordIndex (-1)]).

(** Feeding a list of audio times (seconds) to [handleTimeUpdate]. *)
Fixpoint trackAll (st : State) (times : list Q)
    : outcome (State * list effect) :=
  match times with
  | [] => Ret (st, [])
  | t :: ts =>
    let* r := handleTimeUpdate (Some t) st in
    let* r' := trackAll (fst r) ts in
    Ret (fst r', snd r ++ snd r')
  end.

End Web.

(** ** Input shapes *)

(** The array has at most [2^30] elements, so that [lo + hi] stays a signed
    32-bit integer in the loop. *)
Definition fits {A} (arr : list A) : Prop := len arr <= 2 ^ 30.

(** Sorted by [start], each span of positive width and ending no later
    than the next one starts. *)
Fixpoint spans_ordered (timings : list WordTiming) : bool :=
  match timings with
  | [] => true
  | a :: rest =>
    lt (start a) (end_ a)
    && match rest with
       | [] => true
       | b :: _ => Qle_bool (start a) (start b) && Qle_bool (end_ a) (start b)
       end
    && spans_ordered rest
  end.

(** ** Sample segments *)

(** Scenarios 1 and 2 of the specification. *)
Definition scenario1 : list WordTiming :=
  [ {| word := "The"; start := 0; end_ := 200 |};
    {| word := "cat"; start := 200; end_ := 500 |};
    {| word := "sat"; start := 500; end_ := 900 |} ].

Definition scenario2 : list WordTiming :=
  [ {| word := "a"; start := 0; end_ := 200 |};
    {| word := "b"; start := 400; end_ := 600 |} ].

(** Two words out of order, and a zero-width word between two others. *)
Definition unsorted_pair : list WordTiming :=
  [ {| word := "late"; start := 10; end_ := 20 |};
    {| word := "early"; start := 0; end_ := 5 |} ].

Definition scenario6 : list WordTiming :=
  [ {| word := "a"; start := 0; end_ := 300 |};
    {| word := "x"; start := 300; end_ := 300 |};
    {| word := "b"; start := 300; end_ := 600 |} ].

(** Non-decreasing [start]s, and spans that end before the next begins,
    read through the array. *)
Definition starts_sorted (timings : list WordTiming) : Prop :=
  forall (i j : Z) (a b : WordTiming),
    item timings i = Some a -> item timings j = Some b -> i <= j ->
    (start a <= start b)%Q.

Definition no_overlap (timings : list WordTiming) : Prop :=
  forall (i : Z) (a b : WordTiming),
    item timings i = Some a -> item timings (i + 1) = Some b ->
    (end_ a <= start b)%Q.

(** Word [i] has started at [posMs] and word [i + 1], if any, has not. *)
Definition floor_at (timings : list WordTiming) (posMs : Q) (i : Z) : Prop :=
  (exists a, item timings i = Some a /\ (start a <= posMs)%Q) /\
  (forall b, item timings (i + 1) = Some b -> (posMs < start b)%Q).

(** ** The lookup of either client *)

Inductive client : Type := mobile | web.

Definition findWordIndex_fuel_of (c : client)
    : nat -> list WordTiming -> Q -> outcome Z :=
  match c with
  | mobile => Mobile.findWordIndex_fuel
  | web => Web.findWordIndex_fuel
  end.

Definition findWordIndex_of (c : client) : list WordTiming -> Q -> outcome Z :=
  match c with
  | mobile => Mobile.findWordIndex
  | web => Web.findWordIndex
  end.

(** ** Both clients side by side *)

(** A mobile and a web component that show the same segment with the same
    word published. *)
Definition same_highlight (m : Mobile.State) (w : Web.State) : Prop :=
  Mobile.wordTimingsRef m = Web.wordTimings w /\
  Mobile.currentWordRef m = Web.currentWordIndex w /\
  Mobile.currentWordIndex m = Web.currentWordIndex w.

(** The response that carries the three words of scenario 1. *)
Definition segment1 : TtsData :=
  {| word_timings := scenario1; pages_read := [1]; audio_url := "a1.mp3" |}.

(** One reader scene, to be shown by either client: the segment, the word
    that is current, the height of the scrolling viewport, the offset of
    each word from the top of the scrolled content, and how far the content
    is scrolled (which is where the last scroll command left it). *)
Record Scene : Type := {
  scene_segment : TtsData;
  scene_current : Z;
  scene_viewport : Q;
  scene_offsets : list Q;
  scene_scrolled : Q;
}.

(** The mobile screen in that scene: every word measured by [onLayout]. *)
Definition measure_all (offsets : list Q) (st : Mobile.State) : Mobile.State :=
  foldr (fun iy acc => Mobile.onLayout (fst iy) (snd iy) acc) st
    (imap (fun i y => (i, y)) offsets).

Definition mobile_scene (s : Scene) : Mobile.State :=
  let loaded := Mobile.handleRead (scene_segment s) Mobile.initial in
  Mobile.set_lastScrollY (scene_scrolled s)
    (Mobile.publish (scene_current s) (measure_all (scene_offsets s) loaded)).

(** The web page in that scene: every word span mounted, the reader
    container at the top of the window, each word where the scrolling has
    put it. *)
Definition web_scene (s : Scene) : Web.State :=
  let loaded := Web.handleRead (scene_segment s) Web.initial in
  Web.set_currentWordIndex (scene_current s)
    (Web.set_wordRefs
       (imap (fun i _ => Some (Span i)) (word_timings (scene_segment s)))
       loaded).

Definition web_layout (s : Scene) : Web.Layout :=
  {| Web.readerRef :=
       Some {| Web.rect_top := 0; Web.rect_height := scene_viewport s |};
     Web.rectOf := fun el =>
       match el with
       | Span i =>
         {| Web.rect_top := (default 0 (scene_offsets s !! i) - scene_scrolled s)%Q;
            Web.rect_height := 0 |}
       end |}.

(** A word a little below the top third of an unscrolled viewport. *)
Definition scene_mid : Scene :=
  {| scene_segment := segment1; scene_current := 0; scene_viewport := 600;
     scene_offsets := [300; 300; 315]%Q; scene_scrolled := 0 |}.

(** The first two words on the first line of an unscrolled viewport. *)
Definition scene_top (current : Z) : Scene :=
  {| scene_segment := segment1; scene_current := current;
     scene_viewport := 600; scene_offsets := [10; 10; 10]%Q;
     scene_scrolled := 0 |}.

(** A web page with the two word spans of a stopped segment still in
    [wordRefs]. *)
Definition web_playing : Web.State :=
  Web.set_currentWordIndex 1
    (Web.refCallback 1 (Some (Span 1))
       (Web.refCallback 0 (Some (Span 0))
          (Web.handleRead
             {| word_timings := scenario2; pages_read := [1];
                audio_url := "a2.mp3" |} Web.initial))).

(** * More of the two components *)

(** ** Traces of published indices *)

(** No index is published twice in a row, starting after [prev]. *)
Fixpoint stutter_free (prev : Z) (indices : list Z) : Prop :=
  match indices with
  | [] => True
  | i :: rest => i <> prev /\ stutter_free i rest
  end.

(** Each index is larger than the one before, starting above [prev]. *)
Fixpoint ascending (prev : Z) (indices : list Z) : Prop :=
  match indices with
  | [] => True
  | i :: rest => prev < i /\ ascending i rest
  end.

(** Positions that never move backward. *)
Fixpoint forward (positions : list Q) : bool :=
  match positions with
  | [] => true
  | p :: rest =>
    match rest with
    | [] => true
    | q :: _ => Qle_bool p q
    end && forward rest
  end.

(** ** More of JavaScript *)

Module JSMore.

(** [Math.floor(q)] and [Math.min(a, b)] on finite numbers. *)
Definition Math_floor (q : Q) : Z := Qfloor q.

(** [a % b] on finite numbers: what is left of [a] after taking out [b]
    a whole number of times, the quotient rounded toward zero. *)
Definition trunc (q : Q) : Z := if lt q 0 then Qceiling q else Qfloor q.
Definition rem (a b : Q) : Q := (a - b * inject_Z (trunc (a / b)))%Q.

(** [n.toString()] of an integer, and [`${n}`]. *)
Definition toString (n : Z) : string := NilZero.string_of_int (Z.to_int n).

(** [s.padStart(n, c)] with a pad of one character. *)
Definition padStart (n : nat) (c : ascii) (s : string) : string :=
  (string_of_list_ascii (repeat c (n - String.length s)) ++ s)%string.

(** [s.replace(pattern, replacement)] with a string pattern: the first
    occurrence is replaced. *)
Fixpoint replace (pattern replacement s : string) : string :=
  if String.prefix pattern s
  then (replacement ++ String.substring (String.length pattern)
                         (String.length s - String.length pattern) s)%string
  else match s with
       | EmptyString => s
       | String c rest => String c (replace pattern replacement rest)
       end.

(** [s.includes(pattern)]. *)
Fixpoint includes (pattern s : string) : bool :=
  String.prefix pattern s
  || match s with
     | EmptyString => false
     | String _ rest => includes pattern rest
     end.

End JSMore.

Import JSMore.

(** ** The mobile reader screen, besides the coupling *)

Module PdfViewerScreen.

(** [formatTime(ms)]. *)
Definition formatTime (ms : Q) : string :=
  let totalSec := Math_floor (ms / 1000) in
  let min := Math_floor (inject_Z totalSec / 60) in
  let sec := Z.rem totalSec 60 in
  (toString min ++ ":" ++ padStart 2 "0" (toString sec))%string.





(** The two buttons around "Page n". *)
Inductive pageButton : Type := Minus | Plus.

Definition pressPage (totalPages : Z) (startPage : Z) (b : pageButton) : Z :=
  match b with
  | Minus => Z.max 1 (startPage - 1)
  | Plus => Z.min totalPages (startPage + 1)
  end.

(** The styles of word [i] of the reader besides [styles.word]. *)
Inductive wordStyle : Type := wordActive | wordRecent | wordPast.

Definition wordStyles (i currentWordIndex : Z) : list wordStyle :=
  (if i =? currentWordIndex then [wordActive] else [])
  ++ (if (i <? currentWordIndex) && (currentWordIndex - 3 <=? i)
      then [wordRecent] else [])
  ++ (if i <? currentWordIndex - 3 then [wordPast] else []).

(** The address handed to [loadAndPlayAudio]:
    [api.getAudioUrl(data.audio_url.replace("/audio/", ""))]. *)
Definition getAudioUrl (API_URL audioId : string) : string :=
  (API_URL ++ "/audio/" ++ audioId)%string.

Definition audioAddress (API_URL audio_url : string) : string :=
  getAudioUrl API_URL (replace "/audio/" "" audio_url).

End PdfViewerScreen.

(** ** The web home page, besides the coupling *)

Module Home.

(** [formatTime(seconds)]. *)
Definition formatTime (seconds : Q) : string :=
  let m := Math_floor (seconds / 60) in
  let s := Math_floor (rem seconds 60) in
  (toString m ++ ":" ++ padStart 2 "0" (toString s))%string.

(** The class of word [i] of the reader. *)
Inductive wordClass : Type := current | read | upcoming.

Definition wordClassOf (i currentWordIndex : Z) : wordClass :=
  if i =? currentWordIndex then current
  else if i <? currentWordIndex then read
  else upcoming.

(** A [Set<string>] as the list of its members in insertion order:
    [set.has(id)] and [new Set(ids)]. *)
Definition has (id : string) (set : list string) : bool :=
  existsb (String.eqb id) set.

Definition setOf (ids : list string) : list string :=
  foldl (fun acc id => if has id acc then acc else acc ++ [id]) [] ids.

(** [toggleFavorite(pdfId)]: the next set of favourites, which is also
    what is written to local storage (as an array). *)
Definition toggleFavorite (pdfId : string) (prev : list string) : list string :=
  if has pdfId prev
  then List.filter (fun id => negb (String.eqb id pdfId)) prev
  else prev ++ [pdfId].

(** The favourites read back from local storage on mount. *)
Definition loadFavorites (saved : option (list string)) : list string :=
  match saved with
  | Some ids => setOf ids
  | None => []
  end.

(** The streak loop of [computeReadingStats]; [readOn i] tells whether the
    read days contain the date [i] days before today.  [todo] counts the
    iterations left of the 365. *)
Fixpoint streakLoop (readOn : nat -> bool) (todo i streak : nat) : nat :=
  match todo with
  | O => streak
  | S todo' =>
    if readOn i then streakLoop readOn todo' (S i) (S streak)
    else if (0 <? i)%nat then streak
    else streakLoop readOn todo' (S i) streak
  end.

Definition streak (readOn : nat -> bool) : nat := streakLoop readOn 365 0 0.

End Home.

(** ** Clock texts *)

(** The decimal digit [d] as a character, and the two digits of a number
    below one hundred. *)
Definition digit (d : Z) : ascii := ascii_of_nat (48 + Z.to_nat d).

Definition two_digits (n : Z) : string :=
  String (digit (n / 10)) (String (digit (n mod 10)) EmptyString).

(** ** The library of documents *)

Module Library.

(** [interface PdfItem], with [progress?.current_page] as far as the
    handlers read the progress. *)
Record PdfItem : Type := {
  pdf_id : string;
  filename : string;
  total_pages : Z;
  thumbnail_url : option string;
  current_page : option Z;
}.

(** What [handleUploadSuccess] and the mobile [handleUpload] receive. *)
Record Uploaded : Type := {
  up_pdf_id : string;
  up_filename : string;
  up_total_pages : Z;
  up_thumbnail_url : option string;
}.

Definition newPdf (data : Uploaded) : PdfItem :=
  {| pdf_id := up_pdf_id data; filename := up_filename data;
     total_pages := up_total_pages data;
     thumbnail_url := up_thumbnail_url data; current_page := None |}.

(** [prev.filter((p) => p.pdf_id !== pdfId)], in both clients. *)
Definition without (pdfId : string) (prev : list PdfItem) : list PdfItem :=
  List.filter (fun p => negb (String.eqb (pdf_id p) pdfId)) prev.

(** The mobile [LibraryScreen]: its list after an upload and after a
    confirmed deletion have succeeded. *)
Definition mobile_handleUpload (data : Uploaded) (pdfs : list PdfItem)
    : list PdfItem :=
  pdfs ++ [newPdf data].

Definition mobile_handleDelete (pdfId : string) (pdfs : list PdfItem)
    : list PdfItem :=
  without pdfId pdfs.

(** The cells of the web [Home] that its library handlers write. *)
Record State : Type := {
  pdfs : list PdfItem;
  activePdf : option PdfItem;
  readPage : Z;
  showPdfViewer : bool;
  deleteConfirm : option PdfItem;
}.

Definition handleUploadSuccess (data : Uploaded) (st : State) : State :=
  {| pdfs := pdfs st ++ [newPdf data]; activePdf := Some (newPdf data);
     readPage := 1; showPdfViewer := showPdfViewer st;
     deleteConfirm := deleteConfirm st |}.

(** [activePdf?.pdf_id === pdf.pdf_id]. *)
Definition is_active (pdf : PdfItem) (st : State) : bool :=
  match activePdf st with
  | Some a => String.eqb (pdf_id a) (pdf_id pdf)
  | None => false
  end.

(** [handleDelete(pdf)], once the backend has deleted the document. *)
Definition handleDelete (pdf : PdfItem) (st : State) : State :=
  {| pdfs := without (pdf_id pdf) (pdfs st);
     activePdf := if is_active pdf st then None else activePdf st;
     readPage := readPage st;
     showPdfViewer := if is_active pdf st then false else showPdfViewer st;
     deleteConfirm := None |}.

End Library.

(** ** The web page over time *)

Module WebSession.

(** [setShowReader(b)], as the "Minimize" and reader buttons call it. *)
Definition set_showReader (b : bool) (st : Web.State) : Web.State :=
  {| Web.wordTimings := Web.wordTimings st;
     Web.currentWordIndex := Web.currentWordIndex st;
     Web.pagesRead := Web.pagesRead st; Web.showReader := b;
     Web.wordRefs := Web.wordRefs st; Web.audioUrl := Web.audioUrl st;
     Web.isPlaying := Web.isPlaying st;
     Web.audioCurrentTime := Web.audioCurrentTime st |}.

(** [setIsPlaying(b)], from [onPlay] and [onPause] of the audio element. *)
Definition set_isPlaying (b : bool) (st : Web.State) : Web.State :=
  {| Web.wordTimings := Web.wordTimings st;
     Web.currentWordIndex := Web.currentWordIndex st;
     Web.pagesRead := Web.pagesRead st; Web.showReader := Web.showReader st;
     Web.wordRefs := Web.wordRefs st; Web.audioUrl := Web.audioUrl st;
     Web.isPlaying := b;
     Web.audioCurrentTime := Web.audioCurrentTime st |}.

(** The reader cells of [Home] together with its [loading] cell, which
    [handleRead] sets on entry and clears when it ends, and which disables
    the button that calls [handleRead]. *)
Record Session : Type := {
  page : Web.State;
  loading : bool;
}.

Definition initial : Session := {| page := Web.initial; loading := false |}.

(** What can happen to the page: its handlers and callbacks in any order,
    a [handleRead] starting only while none is under way and ending by a
    response (of at most [2^30] words) or by a failure. *)
Inductive step : Session -> Session -> Prop :=
| step_time audio s st' es :
    Web.handleTimeUpdate audio (page s) = Ret (st', es) ->
    step s {| page := st'; loading := loading s |}
| step_ended s :
    step s {| page := fst (Web.onEnded (page s)); loading := loading s |}
| step_ref i el s :
    step s {| page := Web.refCallback i el (page s); loading := loading s |}
| step_show b s :
    step s {| page := set_showReader b (page s); loading := loading s |}
| step_playing b s :
    step s {| page := set_isPlaying b (page s); loading := loading s |}
| step_stop audio s :
    step s {| page := fst (Web.handleStop audio (page s)); loading := loading s |}
| step_read_begin s :
    loading s = false ->
    step s {| page := fst (Web.handleRead_begin (page s)); loading := true |}
| step_read_resolved data s :
    loading s = true -> fits (word_timings data) ->
    step s {| page := Web.handleRead_resolved data (page s); loading := false |}
| step_read_rejected s :
    loading s = true ->
    step s {| page := page s; loading := false |}.

Definition reachable (s : Session) : Prop := rtc step initial s.

End WebSession.

(** The web timeline: the time in seconds that a click at [clientX] on
    the bar [rect_left, rect_left + rect_width] assigns to
    [audio.currentTime], if any; [audio] tells whether [audioRef.current]
    is set. *)
Definition web_timeline_click (audio : bool) (audioDuration clientX rect_left
    rect_width : Q) : option Q :=
  if negb audio || strict_eq audioDuration 0 then None
  else
    let pct := ((clientX - rect_left) / rect_width)%Q in
    Some (pct * audioDuration)%Q.

(** ** The backend proxy route of the web client *)

Module Proxy.

(** The incoming request as far as [proxyRequest] reads it: the method
    and the headers, by lower-case name as [req.headers.get] finds them. *)
Record Request : Type := {
  method : string;
  req_headers : list (string * string);
}.

(** [req.headers.get(name)]. *)
Definition get (name : string) (headers : list (string * string))
    : option string :=
  option_map snd (List.find (fun kv => String.eqb (fst kv) name) headers).

(** Whether a header value passes [if (value)]. *)
Definition truthy (value : option string) : bool :=
  match value with
  | Some EmptyString | None => false
  | Some _ => true
  end.

(** The body that is handed on: none, the form re-read entry by entry,
    or the text. *)
Inductive Body : Type := NoBody | FormBody | TextBody.

(** The headers and the body that [proxyRequest] passes to [fetch]. *)
Definition forwarded (req : Request) : list (string * string) * Body :=
  let authHeader := get "authorization" (req_headers req) in
  let contentType := get "content-type" (req_headers req) in
  let headers :=
    (if truthy authHeader
     then [("Authorization"%string, default ""%string authHeader)] else [])
    ++ (if truthy contentType
        then [("Content-Type"%string, default ""%string contentType)] else []) in
  if negb (String.eqb (method req) "GET") && negb (String.eqb (method req) "HEAD")
  then
    if match contentType with
       | Some ct => includes "multipart/form-data" ct
       | None => false
       end
    then (List.filter (fun kv => negb (String.eqb (fst kv) "Content-Type")) headers,
          FormBody)
    else (headers, TextBody)
  else (headers, NoBody).

End Proxy.
(** * Properties *)

(** ** The scenarios of the specification *)

Example ex_150 : Mobile.findWordIndex scenario1 150 = Ret 0.
Proof. reflexivity. Qed.
Example ex_500 : Mobile.findWordIndex scenario1 500 = Ret 2.
Proof. reflexivity. Qed.
Example ex_250 : Mobile.findWordIndex scenario1 250 = Ret 1.
Proof. vm_compute. reflexivity. Qed.
Example ex_neg : Mobile.findWordIndex scenario1 (-5) = Ret (-1).
Proof. reflexivity. Qed.
Example ex_gap : Web.findWordIndex scenario2 300 = Ret 0.
Proof. reflexivity. Qed.

(** ** Numbers and arrays *)

Lemma lt_spec (a b : Q) : reflect (a < b)%Q (lt a b).
Proof.
  unfold lt. destruct (Qle_bool b a) eqn:E; constructor.
  - apply Qle_bool_iff in E. lra.
  - destruct (Qlt_le_dec a b) as [|q]; [assumption|].
    apply Qle_bool_iff in q. congruence.
Qed.

Lemma ge_spec (a b : Q) : reflect (b <= a)%Q (ge a b).
Proof.
  unfold ge. destruct (Qle_bool b a) eqn:E; constructor.
  - now apply Qle_bool_iff.
  - intros H. apply Qle_bool_iff in H. congruence.
Qed.

Lemma gt_spec (a b : Q) : reflect (b < a)%Q (gt a b).
Proof. apply lt_spec. Qed.

Lemma sar1_small (z : Z) : 0 <= z < 2 ^ 31 -> sar z 1 = z / 2.
Proof.
  intros H. unfold sar, ToInt32. cbv zeta.
  rewrite Z.mod_small by lia.
  destruct (Z.ltb_spec z (2 ^ 31)); [|lia].
  now rewrite Z.shiftr_div_pow2 by lia.
Qed.

(** Beyond that range the shift goes wrong: the sum of two indices near
    [2^30] wraps to a negative midpoint. *)
Example sar1_wraps : sar (2 ^ 30 + 2 ^ 30) 1 = - 2 ^ 30.
Proof. reflexivity. Qed.

Lemma midpoint_bounds (lo hi : Z) :
  0 <= lo <= hi -> hi < 2 ^ 30 ->
  lo <= sar (lo + hi) 1 <= hi /\
  2 * sar (lo + hi) 1 <= lo + hi <= 2 * sar (lo + hi) 1 + 1.
Proof.
  intros H1 H2. rewrite sar1_small by lia.
  pose proof (Z.div_mod (lo + hi) 2 ltac:(lia)) as E.
  pose proof (Z.mod_pos_bound (lo + hi) 2 ltac:(lia)) as B.
  lia.
Qed.

Lemma item_Some {A} (arr : list A) (i : Z) (a : A) :
  item arr i = Some a <-> 0 <= i /\ arr !! Z.to_nat i = Some a.
Proof.
  unfold item. destruct (Z.ltb_spec i 0); split.
  - discriminate.
  - intros [? _]. lia.
  - auto.
  - now intros [_ ?].
Qed.

Lemma item_range {A} (arr : list A) (i : Z) (a : A) :
  item arr i = Some a -> 0 <= i < len arr.
Proof.
  intros H. apply item_Some in H as [H0 H].
  apply lookup_lt_Some in H. unfold len. lia.
Qed.

Lemma item_in_range {A} (arr : list A) (i : Z) :
  0 <= i < len arr -> exists a, item arr i = Some a.
Proof.
  intros H. unfold len in H.
  destruct (lookup_lt_is_Some_2 arr (Z.to_nat i) ltac:(lia)) as [a Ha].
  exists a. apply item_Some. split; [lia | exact Ha].
Qed.

Lemma item_of_nat {A} (arr : list A) (i : nat) :
  item arr (Z.of_nat i) = arr !! i.
Proof.
  unfold item. destruct (Z.ltb_spec (Z.of_nat i) 0); [lia|].
  now rewrite Nat2Z.id.
Qed.

Lemma read_item {A} (arr : list A) (i : Z) (a : A) :
  item arr i = Some a -> read arr i = Ret a.
Proof. unfold read. now intros ->. Qed.

Lemma len_lt_iterations {A} (arr : list A) :
  len arr < 2 ^ Z.of_nat (iterations arr).
Proof.
  unfold len, iterations. destruct (length arr) as [|n] eqn:E.
  - cbn. lia.
  - pose proof (Nat.log2_spec (S n) ltac:(lia)) as [_ H].
    apply Nat2Z.inj_lt in H. rewrite Nat2Z.inj_pow in H. exact H.
Qed.

Lemma pow2_fuel_mono (f f' : nat) :
  (f <= f')%nat -> 2 ^ Z.of_nat f <= 2 ^ Z.of_nat f'.
Proof. intros H. apply Z.pow_le_mono_r; lia. Qed.

(** ** The two copies of the lookup agree *)

Lemma web_search_eq : Web.search = Mobile.search.
Proof. reflexivity. Qed.

Lemma web_findWordIndex_fuel_eq : Web.findWordIndex_fuel = Mobile.findWordIndex_fuel.
Proof. reflexivity. Qed.

Lemma web_findWordIndex_eq : Web.findWordIndex = Mobile.findWordIndex.
Proof. reflexivity. Qed.

(** ** The search loop *)

Section Search.

Variable timings : list WordTiming.
Variable posMs : Q.
Hypothesis Hfits : fits timings.

(** One turn of the loop, with the midpoint in range. *)
Lemma search_step (fuel : nat) (lo hi : Z) :
  0 <= lo <= hi -> hi < len timings ->
  exists m,
    item timings (sar (lo + hi) 1) = Some m /\
    Mobile.search (S fuel) timings posMs lo hi =
      if ge posMs (start m) && lt posMs (end_ m) then Ret (sar (lo + hi) 1)
      else if lt posMs (start m)
           then Mobile.search fuel timings posMs lo (sar (lo + hi) 1 - 1)
           else Mobile.search fuel timings posMs (sar (lo + hi) 1 + 1) hi.
Proof.
  intros Hlo Hhi. unfold fits in Hfits.
  destruct (midpoint_bounds lo hi ltac:(lia) ltac:(lia)) as [Hm _].
  destruct (item_in_range timings (sar (lo + hi) 1) ltac:(lia)) as [m Hitem].
  exists m. split; [exact Hitem|].
  cbn [Mobile.search]. destruct (Z.leb_spec lo hi); [|lia].
  cbv zeta. rewrite (read_item _ _ _ Hitem). reflexivity.
Qed.

Lemma search_done (fuel : nat) (lo hi : Z) :
  hi < lo -> Mobile.search fuel timings posMs lo hi = Ret (Z.max 0 (lo - 1)).
Proof.
  intros H. destruct fuel; cbn [Mobile.search];
    destruct (Z.leb_spec lo hi); (lia || reflexivity).
Qed.

(** The loop returns within its budget, whatever the array holds, and
    what it returns is an index between the bounds. *)
Lemma search_returns (fuel : nat) : forall lo hi : Z,
  0 <= lo -> hi < len timings -> hi - lo + 1 < 2 ^ Z.of_nat fuel ->
  exists r, Mobile.search fuel timings posMs lo hi = Ret r /\
            0 <= r /\ lo - 1 <= r /\ r <= Z.max 0 (Z.max hi (lo - 1)).
Proof.
  induction fuel as [|fuel IH]; intros lo hi Hlo Hhi Hsize.
  - change (2 ^ Z.of_nat 0) with 1 in Hsize.
    exists (Z.max 0 (lo - 1)). rewrite search_done by lia.
    split; [reflexivity | lia].
  - destruct (Z.lt_ge_cases hi lo) as [Hdone|Hgo].
    { exists (Z.max 0 (lo - 1)). rewrite search_done by lia.
    split; [reflexivity | lia]. }
    rewrite Nat2Z.inj_succ, Z.pow_succ_r in Hsize by lia.
    unfold fits in Hfits.
    destruct (midpoint_bounds lo hi ltac:(lia) ltac:(lia)) as [Hm Hm2].
    destruct (search_step fuel lo hi ltac:(lia) Hhi) as (m & _ & ->).
    destruct (ge posMs (start m) && lt posMs (end_ m)).
    { eexists. split; [reflexivity | lia]. }
    destruct (lt posMs (start m)).
    + destruct (IH lo (sar (lo + hi) 1 - 1)) as (r & -> & Hr); [lia..|].
      exists r. split; [reflexivity | lia].
    + destruct (IH (sar (lo + hi) 1 + 1) hi) as (r & -> & Hr); [lia..|].
      exists r. split; [reflexivity | lia].
Qed.

(** A larger budget does not change a returned value. *)
Lemma search_budget_mono (fuel : nat) : forall (lo hi r : Z) (fuel' : nat),
  Mobile.search fuel timings posMs lo hi = Ret r -> (fuel <= fuel')%nat ->
  Mobile.search fuel' timings posMs lo hi = Ret r.
Proof.
  induction fuel as [|fuel IH]; intros lo hi r fuel' H Hle.
  - cbn [Mobile.search] in H. destruct (Z.leb_spec lo hi); [discriminate|].
    rewrite search_done by lia. rewrite <- H. reflexivity.
  - destruct fuel' as [|fuel']; [lia|].
    cbn [Mobile.search] in *. destruct (lo <=? hi); [|exact H].
    cbv zeta in *. destruct (read timings (sar (lo + hi) 1)) as [m| |];
      cbn [bind] in *; try discriminate.
    destruct (ge posMs (start m) && lt posMs (end_ m)); [exact H|].
    destruct (lt posMs (start m)); apply IH with (fuel' := fuel') in H;
      (exact H || lia).
Qed.

End Search.

(** ** Ordered spans *)

Lemma spans_ordered_tail (a : WordTiming) (rest : list WordTiming) :
  spans_ordered (a :: rest) = true -> spans_ordered rest = true.
Proof.
  cbn [spans_ordered]. intros H.
  apply andb_true_iff in H as [_ H]. exact H.
Qed.

Lemma spans_ordered_head_le (rest : list WordTiming) : forall a : WordTiming,
  spans_ordered (a :: rest) = true ->
  forall (j : nat) (b : WordTiming), rest !! j = Some b ->
  (start a <= start b)%Q.
Proof.
  induction rest as [|b0 rest IH]; intros a H j b Hj; [discriminate|].
  pose proof (spans_ordered_tail _ _ H) as Ht.
  cbn [spans_ordered] in H.
  apply andb_true_iff in H as [H _]. apply andb_true_iff in H as [_ H].
  apply andb_true_iff in H as [H _]. apply Qle_bool_iff in H.
  destruct j as [|j]; cbn in Hj.
  - injection Hj as <-. exact H.
  - specialize (IH b0 Ht j b Hj). lra.
Qed.

Lemma spans_ordered_mono (timings : list WordTiming) :
  spans_ordered timings = true ->
  forall (i j : nat) (a b : WordTiming),
    timings !! i = Some a -> timings !! j = Some b -> (i <= j)%nat ->
    (start a <= start b)%Q.
Proof.
  induction timings as [|x rest IH]; intros H i j a b Hi Hj Hle; [discriminate|].
  destruct i as [|i], j as [|j]; cbn in Hi, Hj; try lia.
  - injection Hi as <-. injection Hj as <-. lra.
  - injection Hi as <-. eapply spans_ordered_head_le; eauto.
  - eapply IH; eauto using spans_ordered_tail. lia.
Qed.

Lemma spans_ordered_adjacent (timings : list WordTiming) :
  spans_ordered timings = true ->
  forall (i : nat) (a b : WordTiming),
    timings !! i = Some a -> timings !! S i = Some b ->
    (end_ a <= start b)%Q.
Proof.
  induction timings as [|x rest IH]; intros H i a b Hi Hj; [discriminate|].
  destruct i as [|i]; cbn in Hi, Hj.
  - injection Hi as <-. destruct rest as [|y rest]; [discriminate|].
    cbn in Hj. injection Hj as <-. cbn [spans_ordered] in H.
    apply andb_true_iff in H as [H _]. apply andb_true_iff in H as [_ H].
    apply andb_true_iff in H as [_ H]. now apply Qle_bool_iff in H.
  - eapply IH; eauto using spans_ordered_tail.
Qed.

Lemma spans_ordered_positive (timings : list WordTiming) :
  spans_ordered timings = true ->
  forall (i : nat) (a : WordTiming),
    timings !! i = Some a -> (start a < end_ a)%Q.
Proof.
  induction timings as [|x rest IH]; intros H i a Hi; [discriminate|].
  destruct i as [|i]; cbn in Hi.
  - injection Hi as <-. cbn [spans_ordered] in H.
    apply andb_true_iff in H as [H _]. apply andb_true_iff in H as [H _].
    now destruct (lt_spec (start x) (end_ x)).
  - eapply IH; eauto using spans_ordered_tail.
Qed.

Lemma spans_ordered_sorted (timings : list WordTiming) :
  spans_ordered timings = true -> starts_sorted timings.
Proof.
  intros H i j a b Hi Hj Hle.
  apply item_Some in Hi as [Hi0 Hi]. apply item_Some in Hj as [Hj0 Hj].
  eapply spans_ordered_mono; eauto. lia.
Qed.

Lemma spans_ordered_no_overlap (timings : list WordTiming) :
  spans_ordered timings = true -> no_overlap timings.
Proof.
  intros H i a b Hi Hj.
  apply item_Some in Hi as [Hi0 Hi]. apply item_Some in Hj as [Hj0 Hj].
  replace (Z.to_nat (i + 1)) with (S (Z.to_nat i)) in Hj by lia.
  eapply spans_ordered_adjacent; eauto.
Qed.

(** ** The word that has started last *)

Section Floor.

Variable timings : list WordTiming.
Variable posMs : Q.
Hypothesis Hfits : fits timings.
Hypothesis Hsorted : starts_sorted timings.
Hypothesis Hapart : no_overlap timings.

Lemma search_floor (fuel : nat) : forall lo hi i : Z,
  0 <= lo -> hi < len timings -> hi - lo + 1 < 2 ^ Z.of_nat fuel ->
  floor_at timings posMs i -> lo - 1 <= i <= hi ->
  Mobile.search fuel timings posMs lo hi = Ret i.
Proof.
  induction fuel as [|fuel IH];
    intros lo hi i Hlo Hhi Hsize [(a & Ha & Hstart) Hnext] Hi;
    pose proof (item_range _ _ _ Ha) as Hrange.
  - change (2 ^ Z.of_nat 0) with 1 in Hsize.
    rewrite search_done by lia. f_equal. lia.
  - destruct (Z.lt_ge_cases hi lo) as [Hdone|Hgo].
    { rewrite search_done by lia. f_equal. lia. }
    rewrite Nat2Z.inj_succ, Z.pow_succ_r in Hsize by lia.
    pose proof Hfits as Hfits'. unfold fits in Hfits'.
    destruct (midpoint_bounds lo hi ltac:(lia) ltac:(lia)) as [Hm Hm2].
    destruct (search_step timings posMs Hfits fuel lo hi ltac:(lia) Hhi)
      as (m & Hmid & ->).
    set (mid := sar (lo + hi) 1) in *.
    destruct (ge_spec posMs (start m)) as [Hge|Hge]; cbn [andb].
    + destruct (lt_spec posMs (end_ m)) as [Hlt|Hlt].
      * (* inside the span of [mid]: it is [i] *)
        f_equal. destruct (Z.lt_trichotomy mid i) as [Hc|[Hc|Hc]]; [|exact Hc|].
        -- destruct (item_in_range timings (mid + 1) ltac:(lia)) as [n Hn].
           pose proof (Hapart mid m n Hmid Hn).
           pose proof (Hsorted (mid + 1) i n a Hn Ha ltac:(lia)). lra.
        -- destruct (item_in_range timings (i + 1) ltac:(lia)) as [n Hn].
           pose proof (Hnext n Hn).
           pose proof (Hsorted (i + 1) mid n m Hn Hmid ltac:(lia)). lra.
      * (* at or past the end of [mid]: go right *)
        destruct (lt_spec posMs (start m)) as [Hc|_]; [lra|].
        apply IH; [lia..| |].
        -- split; [exists a; auto | exact Hnext].
        -- split; [|lia]. destruct (Z.le_gt_cases mid i) as [|Hc]; [lia|].
           destruct (item_in_range timings (i + 1) ltac:(lia)) as [n Hn].
           pose proof (Hnext n Hn).
           pose proof (Hsorted (i + 1) mid n m Hn Hmid ltac:(lia)). lra.
    + (* before the start of [mid]: go left *)
      destruct (lt_spec posMs (start m)) as [_|Hc]; [|lra].
      apply IH; [lia..| |].
      * split; [exists a; auto | exact Hnext].
      * split; [lia|]. destruct (Z.le_gt_cases mid i) as [Hc|]; [|lia].
        pose proof (Hsorted mid i m a Hmid Ha Hc). lra.
Qed.

Lemma findWordIndex_fuel_floor (fuel : nat) (i : Z) :
  (iterations timings <= fuel)%nat -> floor_at timings posMs i ->
  Mobile.findWordIndex_fuel fuel timings posMs = Ret i.
Proof.
  intros Hfuel Hfloor. pose proof Hfloor as [(a & Ha & Hstart) Hnext].
  pose proof (item_range _ _ _ Ha) as Hrange.
  unfold Mobile.findWordIndex_fuel.
  destruct (Z.eqb_spec (len timings) 0) as [He|_]; [lia|]. cbv zeta.
  destruct (item_in_range timings 0 ltac:(lia)) as [first Hfirst].
  destruct (item_in_range timings (len timings - 1) ltac:(lia)) as [last Hlast].
  rewrite (read_item _ _ _ Hfirst). cbn [bind].
  pose proof (Hsorted 0 i first a Hfirst Ha ltac:(lia)).
  destruct (lt_spec posMs (start first)) as [Hc|_]; [lra|].
  rewrite (read_item _ _ _ Hlast). cbn [bind].
  destruct (ge_spec posMs (start last)) as [Hge|Hlt].
  - f_equal. destruct (Z.eq_dec i (len timings - 1)) as [|Hne]; [lia|].
    destruct (item_in_range timings (i + 1) ltac:(lia)) as [n Hn].
    pose proof (Hnext n Hn).
    pose proof (Hsorted (i + 1) (len timings - 1) n last Hn Hlast ltac:(lia)).
    lra.
  - apply search_floor; try lia; [|exact Hfloor].
    pose proof (len_lt_iterations timings).
    pose proof (pow2_fuel_mono _ _ Hfuel). lia.
Qed.

(** Every position at or after the first start has such a word. *)
Lemma floor_exists (first : WordTiming) :
  item timings 0 = Some first -> (start first <= posMs)%Q ->
  exists i, 0 <= i < len timings /\ floor_at timings posMs i.
Proof.
  intros Hfirst Hstart.
  assert (forall k : nat, Z.of_nat k < len timings ->
            exists i, 0 <= i <= Z.of_nat k /\
              (exists a, item timings i = Some a /\ (start a <= posMs)%Q) /\
              (i = Z.of_nat k \/
               forall b, item timings (i + 1) = Some b -> (posMs < start b)%Q))
    as Hscan.
  { induction k as [|k IH]; intros Hk.
    - exists 0. split; [lia|]. split; [eauto|]. now left.
    - destruct IH as (i & Hi & Ha & Hor); [lia|].
      destruct (item_in_range timings (Z.of_nat (S k)) ltac:(lia)) as [n Hn].
      destruct Hor as [->|Hnext].
      + destruct (lt_spec posMs (start n)) as [Hlt|Hge].
        * exists (Z.of_nat k). split; [lia|]. split; [exact Ha|]. right.
          intros b Hb. replace (Z.of_nat k + 1) with (Z.of_nat (S k)) in Hb by lia.
          congruence.
        * exists (Z.of_nat (S k)). split; [lia|]. split; [|now left].
          exists n. split; [exact Hn | lra].
      + exists i. split; [lia|]. split; [exact Ha|]. now right. }
  pose proof (item_range _ _ _ Hfirst) as Hlen.
  destruct (Hscan (Z.to_nat (len timings - 1)) ltac:(lia)) as (i & Hi & Ha & Hor).
  exists i. split; [lia|]. split; [exact Ha|].
  destruct Hor as [->|Hnext]; [|exact Hnext].
  intros b Hb. apply item_range in Hb. lia.
Qed.

End Floor.

(** ** The lookup as a whole *)

Lemma head_item {A} (arr : list A) : head arr = item arr 0.
Proof. now rewrite head_lookup. Qed.

Lemma last_item {A} (arr : list A) : last arr = item arr (len arr - 1).
Proof.
  rewrite last_lookup. unfold item, len. destruct arr as [|a arr]; [reflexivity|].
  destruct (Z.ltb_spec (Z.of_nat (length (a :: arr)) - 1) 0) as [H|H].
  - cbn [length] in H. lia.
  - f_equal. lia.
Qed.

Lemma len_nil_iff {A} (arr : list A) : len arr = 0 <-> arr = [].
Proof.
  unfold len. destruct arr; cbn [length]; split; intros H;
    (reflexivity || discriminate || lia).
Qed.

Lemma findWordIndex_fuel_empty (fuel : nat) (posMs : Q) :
  Mobile.findWordIndex_fuel fuel [] posMs = Ret (-1).
Proof. reflexivity. Qed.

Lemma findWordIndex_fuel_before_first (fuel : nat) (timings : list WordTiming)
    (posMs : Q) (first : WordTiming) :
  head timings = Some first -> (posMs < start first)%Q ->
  Mobile.findWordIndex_fuel fuel timings posMs = Ret (-1).
Proof.
  intros Hfirst Hlt. rewrite head_item in Hfirst.
  pose proof (item_range _ _ _ Hfirst).
  unfold Mobile.findWordIndex_fuel.
  destruct (Z.eqb_spec (len timings) 0) as [He|_]; [lia|]. cbv zeta.
  rewrite (read_item _ _ _ Hfirst). cbn [bind].
  now destruct (lt_spec posMs (start first)).
Qed.

Lemma findWordIndex_fuel_trailing (fuel : nat) (timings : list WordTiming)
    (posMs : Q) (first final : WordTiming) :
  head timings = Some first -> last timings = Some final ->
  (start first <= posMs)%Q -> (start final <= posMs)%Q ->
  Mobile.findWordIndex_fuel fuel timings posMs = Ret (len timings - 1).
Proof.
  intros Hfirst Hlast H1 H2. rewrite head_item in Hfirst. rewrite last_item in Hlast.
  pose proof (item_range _ _ _ Hfirst).
  unfold Mobile.findWordIndex_fuel.
  destruct (Z.eqb_spec (len timings) 0) as [He|_]; [lia|]. cbv zeta.
  rewrite (read_item _ _ _ Hfirst). cbn [bind].
  destruct (lt_spec posMs (start first)); [lra|].
  rewrite (read_item _ _ _ Hlast). cbn [bind].
  now destruct (ge_spec posMs (start final)).
Qed.

(** On every array that fits, the lookup returns: [-1] exactly when the
    array is empty or the position lies before the first start, and an
    index of the array otherwise. *)
Lemma findWordIndex_fuel_returns (fuel : nat) (timings : list WordTiming)
    (posMs : Q) :
  fits timings -> (iterations timings <= fuel)%nat ->
  exists r, Mobile.findWordIndex_fuel fuel timings posMs = Ret r /\
    (r = -1 <-> timings = [] \/
                exists first, head timings = Some first /\ (posMs < start first)%Q) /\
    (r <> -1 -> 0 <= r <= len timings - 1).
Proof.
  intros Hfits Hfuel. destruct timings as [|w rest] eqn:E.
  { exists (-1). split; [reflexivity|]. split; [tauto | lia]. }
  rewrite <- E in *. assert (Hlen : 0 < len timings) by (subst; unfold len; cbn [length]; lia).
  assert (Hne : timings <> []) by (subst; discriminate).
  destruct (item_in_range timings 0 ltac:(lia)) as [first Hfirst].
  destruct (item_in_range timings (len timings - 1) ltac:(lia)) as [final Hlast].
  destruct (lt_spec posMs (start first)) as [Hlt|Hge].
  { exists (-1). rewrite <- head_item in Hfirst.
    rewrite (findWordIndex_fuel_before_first _ _ _ _ Hfirst Hlt).
    split; [reflexivity|]. split; [|lia]. split; [eauto | reflexivity]. }
  assert (Hno : ~ (timings = [] \/
                   exists f, head timings = Some f /\ (posMs < start f)%Q)).
  { intros [?|(f & Hf & Hlt)]; [contradiction|].
    rewrite head_item in Hf. congruence. }
  unfold Mobile.findWordIndex_fuel.
  destruct (Z.eqb_spec (len timings) 0) as [He|_]; [lia|]. cbv zeta.
  rewrite (read_item _ _ _ Hfirst). cbn [bind].
  destruct (lt_spec posMs (start first)); [contradiction|].
  rewrite (read_item _ _ _ Hlast). cbn [bind].
  destruct (ge posMs (start final)).
  - exists (len timings - 1). split; [reflexivity|]. split; [|lia].
    split; [lia | tauto].
  - pose proof (len_lt_iterations timings).
    pose proof (pow2_fuel_mono _ _ Hfuel).
    destruct (search_returns timings posMs Hfits fuel 0 (len timings - 1))
      as (r & -> & Hr); [lia..|].
    exists r. split; [reflexivity|]. split; [|lia]. split; [lia | tauto].
Qed.

Lemma findWordIndex_fuel_mono (fuel fuel' : nat) (timings : list WordTiming)
    (posMs : Q) (r : Z) :
  Mobile.findWordIndex_fuel fuel timings posMs = Ret r -> (fuel <= fuel')%nat ->
  Mobile.findWordIndex_fuel fuel' timings posMs = Ret r.
Proof.
  unfold Mobile.findWordIndex_fuel. intros H Hle.
  destruct (len timings =? 0); [exact H|]. cbv zeta in *.
  destruct (read timings 0) as [first| |]; cbn [bind] in *; try discriminate.
  destruct (lt posMs (start first)); [exact H|].
  destruct (read timings (len timings - 1)) as [final| |]; cbn [bind] in *;
    try discriminate.
  destruct (ge posMs (start final)); [exact H|].
  eapply search_budget_mono; eauto.
Qed.

Lemma findWordIndex_of_mobile (c : client) :
  findWordIndex_of c = Mobile.findWordIndex.
Proof. destruct c; reflexivity. Qed.

Lemma findWordIndex_fuel_of_mobile (c : client) :
  findWordIndex_fuel_of c = Mobile.findWordIndex_fuel.
Proof. destruct c; reflexivity. Qed.

(** The lookup returns the word that has started last. *)
Lemma findWordIndex_floor (timings : list WordTiming) (posMs : Q) (i : Z) :
  fits timings -> spans_ordered timings = true -> floor_at timings posMs i ->
  Mobile.findWordIndex timings posMs = Ret i.
Proof.
  intros Hfits Hord Hfloor. unfold Mobile.findWordIndex.
  apply findWordIndex_fuel_floor;
    auto using spans_ordered_sorted, spans_ordered_no_overlap.
Qed.

(** ** Claims about [findWordIndex] *)

(** C1 (exact containment).  On an array sorted by [start] whose spans have
    positive width and do not overlap, a position inside the span of word
    [i] ([start <= pos < end]) makes [findWordIndex] return [i], in either
    client.  The array is one whose indices the [>> 1] of the code can
    halve (at most [2^30] elements). *)
Theorem findWordIndex_exact_containment (c : client) (timings : list WordTiming)
    (pos : Q) (i : nat) (w : WordTiming) :
  fits timings -> spans_ordered timings = true ->
  timings !! i = Some w -> (start w <= pos)%Q -> (pos < end_ w)%Q ->
  findWordIndex_of c timings pos = Ret (Z.of_nat i).
Proof.
  intros Hfits Hord Hi Hstart Hend. rewrite findWordIndex_of_mobile.
  apply findWordIndex_floor; auto. split.
  - exists w. now rewrite item_of_nat.
  - intros b Hb. rewrite <- item_of_nat in Hi.
    pose proof (spans_ordered_no_overlap _ Hord _ _ _ Hi Hb). lra.
Qed.

Lemma findWordIndex_exact_containment_witness :
  fits scenario1 /\ spans_ordered scenario1 = true /\
  findWordIndex_of web scenario1 250 = Ret 1.
Proof.
  split; [unfold fits, len; cbn; lia|]. split; [reflexivity|].
  apply (findWordIndex_exact_containment web scenario1 250 1
           {| word := "cat"; start := 200; end_ := 500 |});
    [unfold fits, len; cbn; lia | reflexivity | reflexivity
    | unfold Qle; cbn; lia | reflexivity].
Defined.

(** C3 (gap fallback).  On such an array, a position in the gap between
    word [i] and word [i + 1] ([T[i].end <= pos < T[i+1].start]) makes
    [findWordIndex] return [i], the word before the gap. *)
Theorem findWordIndex_gap_fallback (c : client) (timings : list WordTiming)
    (pos : Q) (i : nat) (a b : WordTiming) :
  fits timings -> spans_ordered timings = true ->
  timings !! i = Some a -> timings !! S i = Some b ->
  (end_ a <= pos)%Q -> (pos < start b)%Q ->
  findWordIndex_of c timings pos = Ret (Z.of_nat i).
Proof.
  intros Hfits Hord Ha Hb Hend Hstart. rewrite findWordIndex_of_mobile.
  apply findWordIndex_floor; auto. split.
  - exists a. rewrite item_of_nat. split; [exact Ha|].
    pose proof (spans_ordered_positive _ Hord _ _ Ha). lra.
  - intros b' Hb'.
    replace (Z.of_nat i + 1) with (Z.of_nat (S i)) in Hb' by lia.
    rewrite item_of_nat in Hb'. congruence.
Qed.

Lemma findWordIndex_gap_fallback_witness :
  fits scenario2 /\ spans_ordered scenario2 = true /\
  findWordIndex_of mobile scenario2 300 = Ret 0.
Proof.
  split; [unfold fits, len; cbn; lia|]. split; [reflexivity|].
  apply (findWordIndex_gap_fallback mobile scenario2 300 0
           {| word := "a"; start := 0; end_ := 200 |}
           {| word := "b"; start := 400; end_ := 600 |});
    [unfold fits, len; cbn; lia | reflexivity | reflexivity | reflexivity
    | unfold Qle; cbn; lia | reflexivity].
Defined.

(** C4 (no-match sentinel and range).  With no order assumed on the array,
    [findWordIndex] returns [-1] if and only if the array is empty or the
    position is strictly before the first word's start; in every other
    case it returns an index between [0] and [length - 1]. *)
Theorem findWordIndex_sentinel_and_range (c : client) (timings : list WordTiming)
    (pos : Q) :
  fits timings ->
  exists r, findWordIndex_of c timings pos = Ret r /\
    (r = -1 <-> timings = [] \/
                exists first, head timings = Some first /\ (pos < start first)%Q) /\
    (r <> -1 -> 0 <= r <= len timings - 1).
Proof.
  intros Hfits. rewrite findWordIndex_of_mobile.
  apply findWordIndex_fuel_returns; auto.
Qed.

Lemma findWordIndex_sentinel_and_range_witness :
  exists r, findWordIndex_of mobile unsorted_pair 7 = Ret r /\
    (r = -1 <-> unsorted_pair = [] \/
                exists first, head unsorted_pair = Some first /\ (7 < start first)%Q) /\
    (r <> -1 -> 0 <= r <= len unsorted_pair - 1).
Proof.
  apply (findWordIndex_sentinel_and_range mobile unsorted_pair 7).
  unfold fits, len; cbn; lia.
Defined.

(** C5 (termination on all inputs).  Whatever the array holds (unsorted,
    duplicate starts, zero-width or inverted spans) and whatever the
    position, the loop of [findWordIndex] ends without raising: within
    [floor(log2 n) + 1] iterations it returns a value, and a larger budget
    of iterations returns the same value. *)
Theorem findWordIndex_terminates (c : client) (timings : list WordTiming)
    (pos : Q) :
  fits timings ->
  exists r, findWordIndex_of c timings pos = Ret r /\
    forall fuel, (iterations timings <= fuel)%nat ->
      findWordIndex_fuel_of c fuel timings pos = Ret r.
Proof.
  intros Hfits. rewrite findWordIndex_of_mobile, findWordIndex_fuel_of_mobile.
  destruct (findWordIndex_fuel_returns (iterations timings) timings pos Hfits
              ltac:(lia)) as (r & Hr & _).
  exists r. split; [exact Hr|].
  intros fuel Hfuel. eapply findWordIndex_fuel_mono; eauto.
Qed.

Lemma findWordIndex_terminates_witness :
  exists r, findWordIndex_of web scenario6 300 = Ret r /\
    forall fuel, (iterations scenario6 <= fuel)%nat ->
      findWordIndex_fuel_of web fuel scenario6 300 = Ret r.
Proof.
  apply (findWordIndex_terminates web scenario6 300).
  unfold fits, len; cbn; lia.
Defined.

(** C10 (monotone lookup).  On an array sorted by [start] whose spans have
    positive width and do not overlap, a later position never gives a
    smaller index. *)
Theorem findWordIndex_monotone (c : client) (timings : list WordTiming)
    (pos1 pos2 : Q) :
  fits timings -> spans_ordered timings = true -> (pos1 <= pos2)%Q ->
  exists i1 i2,
    findWordIndex_of c timings pos1 = Ret i1 /\
    findWordIndex_of c timings pos2 = Ret i2 /\ i1 <= i2.
Proof.
  intros Hfits Hord Hle. rewrite findWordIndex_of_mobile.
  destruct (findWordIndex_fuel_returns (iterations timings) timings pos2 Hfits
              ltac:(lia)) as (r2 & Hr2 & Hiff2 & Hrange2).
  fold (Mobile.findWordIndex timings pos2) in Hr2.
  destruct (head timings) as [first|] eqn:Hhead.
  2:{ destruct timings; [|discriminate]. exists (-1), (-1).
      repeat split; (reflexivity || lia). }
  destruct (lt_spec pos1 (start first)) as [Hlt|Hge].
  { exists (-1), r2. split; [|split; [exact Hr2 | lia]].
    eapply findWordIndex_fuel_before_first; eauto. }
  rewrite head_item in Hhead.
  destruct (floor_exists timings pos1 first Hhead ltac:(lra)) as (i1 & Hi1 & Hf1).
  destruct (floor_exists timings pos2 first Hhead ltac:(lra)) as (i2 & Hi2 & Hf2).
  exists i1, i2. split; [now apply findWordIndex_floor|].
  split; [now apply findWordIndex_floor|].
  destruct (Z.le_gt_cases i1 i2) as [|Hc]; [assumption|].
  destruct Hf1 as [(a1 & Ha1 & Hs1) _], Hf2 as [_ Hnext2].
  destruct (item_in_range timings (i2 + 1) ltac:(lia)) as [n Hn].
  pose proof (Hnext2 n Hn).
  pose proof (spans_ordered_sorted _ Hord (i2 + 1) i1 n a1 Hn Ha1 ltac:(lia)).
  lra.
Qed.

Lemma findWordIndex_monotone_witness :
  exists i1 i2,
    findWordIndex_of mobile scenario1 150 = Ret i1 /\
    findWordIndex_of mobile scenario1 600 = Ret i2 /\ i1 <= i2.
Proof.
  apply (findWordIndex_monotone mobile scenario1 150 600);
    [unfold fits, len; cbn; lia | reflexivity | unfold Qle; cbn; lia].
Defined.

(** Scenario 6: a zero-width word between two others; every probe returns. *)
Example scenario6_probes :
  List.map (Mobile.findWordIndex scenario6) [-1; 0; 299; 300; 301; 600; 900]%Q
  = List.map Ret [-1; 0; 0; 2; 2; 2; 2].
Proof. vm_compute. reflexivity. Qed.

(** C2 as stated fails on an array that is not sorted: the position is at
    or after the last word's start, yet before the first word's start, and
    the first test of the code answers [-1]. *)
Lemma findWordIndex_trailing_unsorted_counterexample :
  exists final,
    last unsorted_pair = Some final /\ (start final <= 5)%Q /\
    findWordIndex_of mobile unsorted_pair 5 = Ret (-1) /\
    findWordIndex_of web unsorted_pair 5 = Ret (-1) /\
    findWordIndex_of mobile unsorted_pair 5 <> Ret (len unsorted_pair - 1).
Proof.
  exists {| word := "early"; start := 0; end_ := 5 |}.
  split; [reflexivity|]. split; [unfold Qle; cbn; lia|].
  split; [reflexivity|]. split; [reflexivity|]. discriminate.
Qed.

(** C2, amended (trailing position).  On a non-empty array, a position at
    or after the last word's start that is not before the first word's
    start (as is the case whenever the array is sorted by [start]) makes
    [findWordIndex] return the last index, also beyond the last word's
    end. *)
Theorem findWordIndex_trailing (c : client) (timings : list WordTiming)
    (pos : Q) (first final : WordTiming) :
  head timings = Some first -> last timings = Some final ->
  (start first <= pos)%Q -> (start final <= pos)%Q ->
  findWordIndex_of c timings pos = Ret (len timings - 1).
Proof.
  intros Hfirst Hlast H1 H2. rewrite findWordIndex_of_mobile.
  eapply findWordIndex_fuel_trailing; eauto.
Qed.

Lemma findWordIndex_trailing_witness :
  findWordIndex_of mobile scenario1 999999 = Ret 2.
Proof.
  apply (findWordIndex_trailing mobile scenario1 999999
           {| word := "The"; start := 0; end_ := 200 |}
           {| word := "sat"; start := 500; end_ := 900 |});
    [reflexivity | reflexivity | unfold Qle; cbn; lia | unfold Qle; cbn; lia].
Defined.

(** ** Publishing the current word *)

(** C6 (idempotent position updates, no redundant publish).  In either
    client, a position update whose word index equals the published one
    writes nothing to the current-word state: the mobile effect leaves the
    whole state as it is, the web handler only records the audio clock.
    Hence the updates 100, 150, 150, 600 (milliseconds) on the timings of
    scenario 1 publish exactly twice: 0, then 2. *)
Theorem no_redundant_publish :
  (forall (st : Mobile.State) (pos : Q),
     Mobile.findWordIndex (Mobile.wordTimingsRef st) pos
       = Ret (Mobile.currentWordRef st) ->
     Mobile.trackWordEffect st pos = Ret (st, [])) /\
  (forall (st : Web.State) (t : Q),
     Web.findWordIndex (Web.wordTimings st) (t * 1000)%Q
       = Ret (Web.currentWordIndex st) ->
     exists st',
       Web.handleTimeUpdate (Some t) st = Ret (st', []) /\
       (st' = st \/ st' = Web.set_audioCurrentTime t st) /\
       Web.currentWordIndex st' = Web.currentWordIndex st) /\
  (exists st es,
     Mobile.trackAll (Mobile.handleRead segment1 Mobile.initial)
       [100; 150; 150; 600]%Q = Ret (st, es) /\
     es = [SetCurrentWordIndex 0; SetCurrentWordIndex 2] /\
     published es = [0; 2] /\ Mobile.currentWordIndex st = 2) /\
  (exists st es,
     Web.trackAll (Web.handleRead segment1 Web.initial)
       [0.1; 0.15; 0.15; 0.6]%Q = Ret (st, es) /\
     es = [SetCurrentWordIndex 0; SetCurrentWordIndex 2] /\
     published es = [0; 2] /\ Web.currentWordIndex st = 2).
Proof.
  split; [|split; [|split]].
  - intros st pos H. unfold Mobile.trackWordEffect. cbv zeta.
    destruct (len (Mobile.wordTimingsRef st) =? 0); [reflexivity|].
    rewrite H. cbn [bind]. now rewrite Z.eqb_refl.
  - intros st t H. unfold Web.handleTimeUpdate. cbv zeta.
    destruct (len (Web.wordTimings st) =? 0).
    + exists st. auto.
    + exists (Web.set_audioCurrentTime t st).
      rewrite H. cbn [bind]. rewrite Z.eqb_refl. auto.
  - do 2 eexists. split; [vm_compute; reflexivity|]. repeat split.
  - do 2 eexists. split; [vm_compute; reflexivity|]. repeat split.
Qed.

Lemma no_redundant_publish_witness :
  let st := Mobile.publish 0 (Mobile.handleRead segment1 Mobile.initial) in
  Mobile.findWordIndex (Mobile.wordTimingsRef st) 150
    = Ret (Mobile.currentWordRef st) /\
  Mobile.trackWordEffect st 150 = Ret (st, []).
Proof.
  split; [reflexivity|].
  apply (proj1 no_redundant_publish
           (Mobile.publish 0 (Mobile.handleRead segment1 Mobile.initial)) 150%Q).
  reflexivity.
Defined.

(** ** Scrolling *)

Lemma autoScrollEffect_cases (H : Q) (st : Mobile.State) :
  Mobile.autoScrollEffect H st =
  match Mobile.scrollTarget H st with
  | None => (st, [])
  | Some y =>
    if gt (Math_abs (y - Mobile.lastScrollY st)%Q) 20
    then (Mobile.set_lastScrollY y st,
          if Mobile.scrollViewRef st then [ScrollTo y true] else [])
    else (st, [])
  end.
Proof.
  unfold Mobile.autoScrollEffect, Mobile.scrollTarget.
  destruct ((Mobile.currentWordIndex st <? 0) || negb (Mobile.showReader st));
    [reflexivity|].
  destruct (Mobile.wordYPositions st) as [positions|]; [|reflexivity].
  destruct (len positions <=? Mobile.currentWordIndex st); [reflexivity|].
  destruct (item positions (Mobile.currentWordIndex st)) as [targetY|];
    [|reflexivity].
  destruct (strict_eq targetY 0 && (5 <? Mobile.currentWordIndex st));
    reflexivity.
Qed.

(** The cells of the mobile component stay coherent. *)
Lemma step_coherent (H : Q) (st st' : Mobile.State) :
  Mobile.step H st st' -> Mobile.coherent st -> Mobile.coherent st'.
Proof.
  intros Hstep (Hidx & Href & Htable).
  destruct Hstep as [st position st' es Htrack|st|st|i y st|b st|st|data st|url st|st].
  - unfold Mobile.trackWordEffect in Htrack. cbv zeta in Htrack.
    destruct (len (Mobile.wordTimingsRef st) =? 0).
    { injection Htrack as <- _. now repeat split. }
    destruct (Mobile.findWordIndex (Mobile.wordTimingsRef st) position)
      as [idx| |]; cbn [bind] in Htrack; try discriminate.
    destruct (negb (idx =? Mobile.currentWordRef st));
      injection Htrack as <- _; now repeat split.
  - now repeat split.
  - rewrite autoScrollEffect_cases.
    destruct (Mobile.scrollTarget H st) as [y|]; [|now repeat split].
    destruct (gt _ 20); now repeat split.
  - unfold Mobile.onLayout.
    assert (Hsame : Mobile.coherent st).
    { split; [|split]; try assumption. }
    destruct (Mobile.wordYPositions st) as [positions|] eqn:E; [|exact Hsame].
    destruct (i <? length positions)%nat; [|exact Hsame].
    split; [|split]; [assumption..|]. cbn. intros ps [= <-].
    rewrite length_insert. auto.
  - now repeat split.
  - repeat split; cbn; (assumption || discriminate).
  - repeat split; cbn; try assumption. intros ps [= <-]. apply repeat_length.
  - now repeat split.
  - repeat split; cbn; discriminate.
Qed.

Lemma reachable_coherent (H : Q) (st : Mobile.State) :
  Mobile.reachable H st -> Mobile.coherent st.
Proof.
  unfold Mobile.reachable. intros Hreach.
  assert (Hinit : Mobile.coherent Mobile.initial)
    by (repeat split; cbn; discriminate).
  induction Hreach as [|x y z Hstep _ IH]; [assumption|].
  apply IH. eapply step_coherent; eauto.
Qed.

(** When the auto-scroll gets to compute a target, the reader's scroll view
    is mounted. *)
Lemma scrollTarget_mounted (H : Q) (st : Mobile.State) (y : Q) :
  Mobile.coherent st -> Mobile.scrollTarget H st = Some y ->
  Mobile.scrollViewRef st = true.
Proof.
  intros (_ & _ & Htable). unfold Mobile.scrollTarget, Mobile.scrollViewRef.
  destruct (Z.ltb_spec (Mobile.currentWordIndex st) 0) as [|Hidx];
    [discriminate|].
  destruct (Mobile.showReader st); [|discriminate]. cbn [orb negb andb].
  destruct (Mobile.wordYPositions st) as [positions|]; [|discriminate].
  specialize (Htable positions eq_refl).
  destruct (Z.leb_spec (len positions) (Mobile.currentWordIndex st)) as [|Hlen];
    [discriminate|].
  intros _. apply Z.ltb_lt. unfold len in *. lia.
Qed.

(** C7 as stated fails on the web client, which keeps no scroll target:
    with the first two words on the first line of an unscrolled reader,
    both words have the same rectangle, so whatever target the browser
    derives for them is the same and the content cannot scroll further up;
    yet the effect issues a scroll command for the first word and again
    for the second. *)
Lemma web_jitter_counterexample :
  Web.rectOf (web_layout (scene_top 0)) (Span 0)
    = Web.rectOf (web_layout (scene_top 1)) (Span 1) /\
  web_layout (scene_top 0) = web_layout (scene_top 1) /\
  Web.autoScrollEffect (web_layout (scene_top 0)) (web_scene (scene_top 0))
    = [ScrollIntoView (Span 0)] /\
  Web.autoScrollEffect (web_layout (scene_top 1)) (web_scene (scene_top 1))
    = [ScrollIntoView (Span 1)].
Proof. repeat split. Qed.

(** C7, amended (jitter suppression, mobile client).  In every reachable
    state of the mobile component, the auto-scroll issues a scroll command
    only for a computed scroll target that differs from the stored last
    target by more than 20 pixels; it changes the stored last target only
    when it issues a command, and then to the target of that command;
    hence of two consecutive computed targets that differ by at most 20
    pixels, at most one produces a scroll command.  (The web client has no
    such threshold: it scrolls whenever the current word lies outside the
    middle band, from 30% to 70%, of the reader.) *)
Theorem mobile_jitter_suppression (H : Q) (st : Mobile.State) :
  Mobile.reachable H st ->
  let st' := fst (Mobile.autoScrollEffect H st) in
  let es := snd (Mobile.autoScrollEffect H st) in
  (forall e, In e es ->
     exists y, e = ScrollTo y true /\ es = [e] /\
       Mobile.scrollTarget H st = Some y /\
       (20 < Qabs (y - Mobile.lastScrollY st))%Q /\
       Mobile.lastScrollY st' = y) /\
  (Mobile.lastScrollY st' <> Mobile.lastScrollY st ->
   es = [ScrollTo (Mobile.lastScrollY st') true]) /\
  (forall (st2 : Mobile.State) (t1 t2 : Q),
     Mobile.scrollTarget H st = Some t1 ->
     Mobile.scrollTarget H st2 = Some t2 ->
     Mobile.lastScrollY st2 = Mobile.lastScrollY st' ->
     (Qabs (t2 - t1) <= 20)%Q ->
     es = [] \/ snd (Mobile.autoScrollEffect H st2) = []).
Proof.
  intros Hreach. apply reachable_coherent in Hreach.
  cbv zeta. rewrite autoScrollEffect_cases.
  destruct (Mobile.scrollTarget H st) as [y|] eqn:Ht; cbn [fst snd].
  2:{ split; [intros e []|]. split; [congruence|]. intros; discriminate. }
  rewrite (scrollTarget_mounted H st y Hreach Ht).
  unfold Math_abs.
  destruct (gt_spec (Qabs (y - Mobile.lastScrollY st)) 20) as [Hfar|Hnear];
    cbn [fst snd].
  2:{ split; [intros e []|]. split; [congruence|]. auto. }
  split; [|split].
  - intros e [<-|[]]. exists y. auto.
  - reflexivity.
  - intros st2 t1 t2 E1 Ht2 Hlast Hclose. injection E1 as <-.
    right. rewrite autoScrollEffect_cases, Ht2.
    cbn [Mobile.lastScrollY Mobile.set_lastScrollY] in Hlast.
    rewrite Hlast. unfold Math_abs.
    destruct (gt_spec (Qabs (t2 - y)) 20) as [Hc|_]; [lra | reflexivity].
Qed.

Lemma mobile_scene_mid_reachable : Mobile.reachable 600 (mobile_scene scene_mid).
Proof.
  unfold Mobile.reachable.
  eapply rtc_l; [apply Mobile.step_read_begin|].
  eapply rtc_l; [apply (Mobile.step_read_resolved _ segment1)|].
  eapply rtc_l; [apply (Mobile.step_play _ "a1.mp3")|].
  eapply rtc_l; [apply (Mobile.step_layout _ 2 315)|].
  eapply rtc_l; [apply (Mobile.step_layout _ 1 300)|].
  eapply rtc_l; [apply (Mobile.step_layout _ 0 300)|].
  eapply rtc_l;
    [apply (Mobile.step_track _ _ 100 (mobile_scene scene_mid)
              [SetCurrentWordIndex 0]); reflexivity|].
  apply rtc_refl.
Defined.

Lemma mobile_jitter_suppression_witness :
  let st1 := mobile_scene scene_mid in
  let st2 := Mobile.publish 2 (fst (Mobile.autoScrollEffect 600 st1)) in
  Mobile.reachable 600 st1 /\
  (snd (Mobile.autoScrollEffect 600 st1) = []
   \/ snd (Mobile.autoScrollEffect 600 st2) = []).
Proof.
  cbv zeta. split; [exact mobile_scene_mid_reachable|].
  apply (proj2 (proj2 (mobile_jitter_suppression 600 (mobile_scene scene_mid)
                         mobile_scene_mid_reachable))
           (Mobile.publish 2
              (fst (Mobile.autoScrollEffect 600 (mobile_scene scene_mid))))
           (9000 # 100) (10500 # 100));
    [reflexivity | reflexivity | reflexivity | apply Qle_bool_iff; reflexivity].
Defined.

(** ** Closing a segment *)

(** C8 as stated fails on the web client: [handleStop] does not touch
    [wordRefs], so the word elements of the stopped segment are still in
    the table when it returns. *)
Lemma web_stop_keeps_wordRefs_counterexample :
  Web.wordRefs web_playing = [Some (Span 0); Some (Span 1)] /\
  Web.wordRefs (fst (Web.handleStop true web_playing))
    = [Some (Span 0); Some (Span 1)].
Proof. split; reflexivity. Qed.

(** C8, amended (segment close).  The mobile [closeAudio] puts every cell
    back to its initial value: published index [-1] (ref and state), no
    timings, position table [null], last scroll target [0].  The web
    [handleStop] publishes [-1], empties the timings and hides the reader;
    it keeps no scroll target and leaves [wordRefs] as it is, but the
    auto-scroll reads no entry of it after the stop, and [handleRead]
    replaces it by an all-[null] array of the new length.  In both clients
    the index, the timings and the table of a segment loaded after the
    close are those of a segment loaded into a fresh component. *)
Theorem close_resets_coupling :
  (forall st : Mobile.State,
     let st' := fst (Mobile.closeAudio st) in
     Mobile.currentWordIndex st' = -1 /\ Mobile.currentWordRef st' = -1 /\
     Mobile.wordTimings st' = [] /\ Mobile.wordTimingsRef st' = [] /\
     Mobile.wordYPositions st' = None /\ Mobile.lastScrollY st' = 0%Q /\
     st' = Mobile.initial /\
     published (snd (Mobile.closeAudio st)) = [-1]) /\
  (forall (st : Mobile.State) (data : TtsData),
     Mobile.handleRead data (fst (Mobile.closeAudio st))
       = Mobile.handleRead data Mobile.initial /\
     Mobile.wordYPositions (Mobile.handleRead data (fst (Mobile.closeAudio st)))
       = Some (repeat 0%Q (length (word_timings data)))) /\
  (forall (audio : bool) (st : Web.State),
     let st' := fst (Web.handleStop audio st) in
     Web.currentWordIndex st' = -1 /\ Web.wordTimings st' = [] /\
     Web.showReader st' = false /\ Web.wordRefs st' = Web.wordRefs st /\
     (forall doc, Web.autoScrollEffect doc st' = []) /\
     published (snd (Web.handleStop audio st)) = [-1]) /\
  (forall (audio : bool) (st : Web.State) (data : TtsData),
     let st' := Web.handleRead data (fst (Web.handleStop audio st)) in
     Web.currentWordIndex st' = -1 /\
     Web.wordTimings st' = word_timings data /\
     Web.wordRefs st' = repeat None (length (word_timings data)) /\
     Web.currentWordIndex st'
       = Web.currentWordIndex (Web.handleRead data Web.initial) /\
     Web.wordTimings st' = Web.wordTimings (Web.handleRead data Web.initial) /\
     Web.wordRefs st' = Web.wordRefs (Web.handleRead data Web.initial)).
Proof.
  split; [|split; [|split]].
  - intros st. cbn. repeat split.
  - intros st data. split; reflexivity.
  - intros audio st. cbn. repeat split. destruct audio; reflexivity.
  - intros audio st data. cbn. repeat split.
Qed.

(** ** The two clients compared *)

(** C9 as stated fails on the scroll step: for the same scene (the current
    word 300 pixels down a 600 pixel viewport that has not scrolled) the
    mobile client issues a scroll command, to offset 90, and the web
    client issues none, the word lying in the middle band of the reader. *)
Lemma scroll_step_differs_counterexample :
  same_highlight (mobile_scene scene_mid) (web_scene scene_mid) /\
  (exists y,
     snd (Mobile.autoScrollEffect (scene_viewport scene_mid)
            (mobile_scene scene_mid)) = [ScrollTo y true] /\ (y == 90)%Q) /\
  Web.autoScrollEffect (web_layout scene_mid) (web_scene scene_mid) = [].
Proof.
  split; [repeat split|]. split; [|reflexivity].
  eexists. split; reflexivity.
Qed.

(** C9, amended (what the clients share).  The two copies of
    [findWordIndex] return the same result on every array and position,
    under every iteration budget; and from components that show the same
    segment with the same word published, a position update publishes the
    same index changes in both clients and leaves both showing the same
    word again.  (The scroll steps differ: a 20 pixel threshold on a
    stored target in the mobile client, a middle-band test in the web
    client.) *)
Theorem clients_share_lookup_and_highlight :
  (forall (timings : list WordTiming) (pos : Q),
     Mobile.findWordIndex timings pos = Web.findWordIndex timings pos) /\
  (forall (fuel : nat) (timings : list WordTiming) (pos : Q),
     Mobile.findWordIndex_fuel fuel timings pos
       = Web.findWordIndex_fuel fuel timings pos) /\
  (forall (m : Mobile.State) (w : Web.State) (t : Q),
     same_highlight m w ->
     match Mobile.trackWordEffect m (t * 1000)%Q,
           Web.handleTimeUpdate (Some t) w with
     | Ret (m', em), Ret (w', ew) =>
       same_highlight m' w' /\ published em = published ew
     | Throw, Throw => True
     | OutOfFuel, OutOfFuel => True
     | _, _ => False
     end).
Proof.
  split; [reflexivity|]. split; [reflexivity|].
  intros m w t (HT & Href & Hidx).
  unfold Mobile.trackWordEffect, Web.handleTimeUpdate. cbv zeta.
  rewrite web_findWordIndex_eq, <- HT, <- Href.
  destruct (len (Mobile.wordTimingsRef m) =? 0).
  { repeat split; assumption. }
  destruct (Mobile.findWordIndex (Mobile.wordTimingsRef m) (t * 1000)%Q)
    as [idx| |]; cbn [bind]; [|exact I..].
  destruct (idx =? Mobile.currentWordRef m); cbn [negb fst snd].
  - repeat split; cbn; assumption.
  - repeat split; cbn; assumption.
Qed.

Lemma clients_share_lookup_and_highlight_witness :
  same_highlight (Mobile.handleRead segment1 Mobile.initial)
                 (Web.handleRead segment1 Web.initial) /\
  match Mobile.trackWordEffect (Mobile.handleRead segment1 Mobile.initial)
          (0.25 * 1000)%Q,
        Web.handleTimeUpdate (Some 0.25%Q) (Web.handleRead segment1 Web.initial)
  with
  | Ret (m', em), Ret (w', ew) =>
    same_highlight m' w' /\ published em = published ew
  | Throw, Throw => True
  | OutOfFuel, OutOfFuel => True
  | _, _ => False
  end.
Proof.
  split; [repeat split|].
  apply (proj2 (proj2 clients_share_lookup_and_highlight)
           (Mobile.handleRead segment1 Mobile.initial)
           (Web.handleRead segment1 Web.initial) 0.25%Q).
  repeat split.
Defined.

(** What the shared step publishes in that witness: word 1. *)
Example shared_step_publishes :
  exists m', Mobile.trackWordEffect (Mobile.handleRead segment1 Mobile.initial)
               (0.25 * 1000)%Q = Ret (m', [SetCurrentWordIndex 1]).
Proof. eexists. vm_compute. reflexivity. Qed.

(** * More of the two components *)

(** ** The cells of the mobile reader *)

(** X1.  In every reachable state of the mobile reader the ref and the
    state of the published index agree, the ref and the state of the
    timings agree, the position table (when there is one) has one entry
    per word, the stored scroll target is not negative, and audio counts
    as loaded exactly when there is an audio address. *)
Theorem mobile_reader_invariant (H : Q) (st : Mobile.State) :
  Mobile.reachable H st ->
  Mobile.currentWordRef st = Mobile.currentWordIndex st /\
  Mobile.wordTimingsRef st = Mobile.wordTimings st /\
  (forall positions, Mobile.wordYPositions st = Some positions ->
     length positions = length (Mobile.wordTimings st)) /\
  (0 <= Mobile.lastScrollY st)%Q /\
  (Mobile.audioLoaded st = true <-> is_Some (Mobile.audioUri st)).
Proof.
  intros Hreach.
  destruct (reachable_coherent H st Hreach) as (Hidx & Href & Htable).
  split; [exact Hidx|]. split; [exact Href|]. split; [exact Htable|].
  clear Hidx Href Htable. unfold Mobile.reachable in Hreach.
  assert (Hinit : (0 <= Mobile.lastScrollY Mobile.initial)%Q /\
                  (Mobile.audioLoaded Mobile.initial = true
                   <-> is_Some (Mobile.audioUri Mobile.initial))).
  { split; [cbn; lra|]. cbn. split; [discriminate | intros [? ?]; discriminate]. }
  induction Hreach as [|x y z Hstep _ IH]; [assumption|].
  apply IH. clear IH. destruct Hinit as [Hpos Haudio].
  destruct Hstep as [st position st' es Htrack|st|st|i y st|b st|st|data st|url st|st];
    cbn; try (split; assumption).
  - unfold Mobile.trackWordEffect in Htrack. cbv zeta in Htrack.
    destruct (len (Mobile.wordTimingsRef st) =? 0).
    { injection Htrack as <- _. now split. }
    destruct (Mobile.findWordIndex (Mobile.wordTimingsRef st) position)
      as [idx| |]; cbn [bind] in Htrack; try discriminate.
    destruct (negb (idx =? Mobile.currentWordRef st));
      injection Htrack as <- _; now split.
  - rewrite autoScrollEffect_cases.
    destruct (Mobile.scrollTarget H st) as [t|] eqn:Ht; [|now split].
    destruct (gt _ 20); [|now split]. cbn. split; [|assumption].
    unfold Mobile.scrollTarget in Ht.
    destruct ((Mobile.currentWordIndex st <? 0) || negb (Mobile.showReader st));
      [discriminate|].
    destruct (Mobile.wordYPositions st) as [ps|]; [|discriminate].
    destruct (len ps <=? Mobile.currentWordIndex st); [discriminate|].
    destruct (item ps (Mobile.currentWordIndex st)) as [ty|]; [|discriminate].
    destruct (strict_eq ty 0 && (5 <? Mobile.currentWordIndex st));
      [discriminate|]. injection Ht as <-. unfold Math_max.
    destruct (lt_spec 0 (ty - H * 0.35)); lra.
  - unfold Mobile.onLayout. destruct (Mobile.wordYPositions st); [|now split].
    destruct (i <? length l)%nat; now split.
  - split; [lra | assumption].
  - split; [assumption|]. split; [intros _; eexists; reflexivity | reflexivity].
  - split; [lra|]. split; [discriminate | intros [? ?]; discriminate].
Qed.

Lemma mobile_reader_invariant_witness :
  Mobile.reachable 600 (mobile_scene scene_mid) /\
  Mobile.currentWordRef (mobile_scene scene_mid)
    = Mobile.currentWordIndex (mobile_scene scene_mid) /\
  Mobile.wordTimingsRef (mobile_scene scene_mid)
    = Mobile.wordTimings (mobile_scene scene_mid) /\
  (forall positions,
     Mobile.wordYPositions (mobile_scene scene_mid) = Some positions ->
     length positions = length (Mobile.wordTimings (mobile_scene scene_mid))) /\
  (0 <= Mobile.lastScrollY (mobile_scene scene_mid))%Q /\
  (Mobile.audioLoaded (mobile_scene scene_mid) = true
   <-> is_Some (Mobile.audioUri (mobile_scene scene_mid))).
Proof.
  split; [exact mobile_scene_mid_reachable|].
  apply (mobile_reader_invariant 600 (mobile_scene scene_mid)).
  exact mobile_scene_mid_reachable.
Defined.

(** X2.  A word measured by [onLayout] is the word the auto-scroll aims
    at: with a table that holds word [i], the reader shown and word [i]
    current, the scroll target computed after [onLayout i y] is
    [max(0, y - 0.35 * SCREEN_HEIGHT)], unless [y] is [0] and [i] is past
    the sixth word, in which case the word counts as unmeasured and no
    target is computed. *)
Theorem onLayout_sets_scroll_target (H : Q) (st : Mobile.State) (i : nat)
    (y : Q) (positions : list Q) :
  Mobile.wordYPositions st = Some positions -> (i < length positions)%nat ->
  Mobile.currentWordIndex st = Z.of_nat i -> Mobile.showReader st = true ->
  Mobile.scrollTarget H (Mobile.onLayout i y st) =
    if strict_eq y 0 && (5 <? Z.of_nat i) then None
    else Some (Math_max 0 (y - H * 0.35)%Q).
Proof.
  intros Htable Hi Hcur Hshow. unfold Mobile.onLayout. rewrite Htable.
  destruct (Nat.ltb_spec i (length positions)) as [_|]; [|lia].
  unfold Mobile.scrollTarget. cbn. rewrite Hcur, Hshow. cbn.
  destruct (Z.ltb_spec (Z.of_nat i) 0) as [|_]; [lia|].
  unfold len. rewrite length_insert.
  destruct (Z.leb_spec (Z.of_nat (length positions)) (Z.of_nat i)) as [|_]; [lia|].
  rewrite item_of_nat, list_lookup_insert_eq by lia. reflexivity.
Qed.

Lemma onLayout_sets_scroll_target_witness :
  Mobile.scrollTarget 600
    (Mobile.onLayout 1 420
       (Mobile.publish 1 (Mobile.handleRead segment1 Mobile.initial)))
  = Some (Math_max 0 (420 - 600 * 0.35)%Q).
Proof.
  apply (onLayout_sets_scroll_target 600
           (Mobile.publish 1 (Mobile.handleRead segment1 Mobile.initial))
           1 420 [0; 0; 0]%Q); [reflexivity | cbn; lia | reflexivity | reflexivity].
Defined.

(** [onLayout] as one table update: past the end of the table the update
    changes nothing. *)
Lemma onLayout_insert (i : nat) (y : Q) (st : Mobile.State) :
  Mobile.onLayout i y st =
  match Mobile.wordYPositions st with
  | Some positions => Mobile.set_wordYPositions (Some (<[i := y]> positions)) st
  | None => st
  end.
Proof.
  unfold Mobile.onLayout. destruct st as [T R cr ci sh [ps|] ls au al pr];
    cbn [Mobile.wordYPositions]; [|reflexivity].
  destruct (Nat.ltb_spec i (length ps)); [reflexivity|].
  rewrite list_insert_ge by lia. reflexivity.
Qed.

(** X3.  Layout measurements may arrive in any order: two [onLayout]
    calls for different words commute, and of two calls for the same word
    the later one wins. *)
Theorem onLayout_order_independent (i j : nat) (y z : Q) (st : Mobile.State) :
  (i <> j ->
   Mobile.onLayout i y (Mobile.onLayout j z st)
     = Mobile.onLayout j z (Mobile.onLayout i y st)) /\
  Mobile.onLayout i y (Mobile.onLayout i z st) = Mobile.onLayout i y st.
Proof.
  rewrite !(onLayout_insert _ _ st).
  destruct (Mobile.wordYPositions st) as [ps|] eqn:E.
  2:{ rewrite !onLayout_insert, E. split; reflexivity. }
  rewrite !onLayout_insert. cbn [Mobile.wordYPositions Mobile.set_wordYPositions].
  split.
  - intros Hne. now rewrite list_insert_insert_ne.
  - now rewrite list_insert_insert_eq.
Qed.

Lemma onLayout_order_independent_witness :
  Mobile.onLayout 0 12 (Mobile.onLayout 1 40 (Mobile.handleRead segment1 Mobile.initial))
  = Mobile.onLayout 1 40 (Mobile.onLayout 0 12 (Mobile.handleRead segment1 Mobile.initial)).
Proof.
  apply (proj1 (onLayout_order_independent 0 1 12 40
                  (Mobile.handleRead segment1 Mobile.initial))).
  lia.
Defined.

(** ** The element table of the web reader *)

(** X4.  The callback ref of word [i] stores the element where the
    auto-scroll reads it, leaves the other entries alone, and extends the
    table with empty entries when [i] is past its end. *)
Theorem refCallback_read_back (i : nat) (el : option Element) (st : Web.State) :
  let refs := Web.wordRefs st in
  let refs' := Web.wordRefs (Web.refCallback i el st) in
  item refs' (Z.of_nat i) = Some el /\
  length refs' = Nat.max (length refs) (S i) /\
  (forall j, j <> i -> (j < length refs)%nat -> refs' !! j = refs !! j) /\
  (forall j, j <> i -> (length refs <= j < length refs')%nat ->
     refs' !! j = Some None) /\
  Web.currentWordIndex (Web.refCallback i el st) = Web.currentWordIndex st /\
  Web.wordTimings (Web.refCallback i el st) = Web.wordTimings st.
Proof.
  cbv zeta. unfold Web.refCallback. cbn [Web.wordRefs Web.set_wordRefs
    Web.currentWordIndex Web.wordTimings].
  set (refs := Web.wordRefs st).
  assert (Hlen : length (refs ++ repeat None (S i - length refs))
                 = Nat.max (length refs) (S i)).
  { rewrite length_app, repeat_length. lia. }
  split; [|split; [|split; [|split; [|split]]]]; try reflexivity.
  - rewrite item_of_nat. apply list_lookup_insert_eq. lia.
  - rewrite length_insert. exact Hlen.
  - intros j Hne Hj. rewrite list_lookup_insert_ne by congruence.
    now apply lookup_app_l.
  - intros j Hne Hj. rewrite length_insert in Hj.
    rewrite list_lookup_insert_ne by congruence.
    rewrite lookup_app_r by lia.
    destruct (lookup_lt_is_Some_2 (repeat (@None Element) (S i - length refs))
                (j - length refs)%nat) as [x Hx].
    { rewrite repeat_length. lia. }
    rewrite Hx. f_equal. apply list_elem_of_lookup_2 in Hx.
    apply list_elem_of_In, repeat_spec in Hx. exact Hx.
Qed.

(** ** Scroll commands of the mobile reader *)

(** X5.  The mobile auto-scroll never scrolls to a negative offset, and
    every scroll it issues is animated. *)
Theorem mobile_scroll_not_negative (H : Q) (st : Mobile.State) (y : Q)
    (animated : bool) :
  In (ScrollTo y animated) (snd (Mobile.autoScrollEffect H st)) ->
  (0 <= y)%Q /\ animated = true.
Proof.
  rewrite autoScrollEffect_cases.
  destruct (Mobile.scrollTarget H st) as [t|] eqn:Ht; [|intros []].
  destruct (gt _ 20); [|intros []]. cbn [snd].
  destruct (Mobile.scrollViewRef st); [|intros []].
  intros [[= <- <-]|[]]. split; [|reflexivity].
  unfold Mobile.scrollTarget in Ht.
  destruct ((Mobile.currentWordIndex st <? 0) || negb (Mobile.showReader st));
    [discriminate|].
  destruct (Mobile.wordYPositions st) as [ps|]; [|discriminate].
  destruct (len ps <=? Mobile.currentWordIndex st); [discriminate|].
  destruct (item ps (Mobile.currentWordIndex st)) as [ty|]; [|discriminate].
  destruct (strict_eq ty 0 && (5 <? Mobile.currentWordIndex st));
    [discriminate|]. injection Ht as <-. unfold Math_max.
  destruct (lt_spec 0 (ty - H * 0.35)); lra.
Qed.

Lemma mobile_scroll_not_negative_witness :
  In (ScrollTo (9000 # 100) true)
     (snd (Mobile.autoScrollEffect 600 (mobile_scene scene_mid))) /\
  (0 <= 9000 # 100)%Q /\ true = true.
Proof.
  split; [left; reflexivity|].
  apply (mobile_scroll_not_negative 600 (mobile_scene scene_mid) (9000 # 100) true).
  left. reflexivity.
Defined.

(** ** Position updates *)

Lemma published_app (es1 es2 : list effect) :
  published (es1 ++ es2) = published es1 ++ published es2.
Proof.
  induction es1 as [|e es1 IH]; [reflexivity|].
  destruct e; cbn; now rewrite ?IH.
Qed.

(** What one position update of the mobile reader does, given the index
    that the lookup returns. *)
Lemma trackWordEffect_step (st : Mobile.State) (pos : Q) (idx : Z) :
  Mobile.findWordIndex (Mobile.wordTimingsRef st) pos = Ret idx ->
  Mobile.trackWordEffect st pos = Ret (st, []) /\
    (idx = Mobile.currentWordRef st \/ Mobile.wordTimingsRef st = [])
  \/ Mobile.trackWordEffect st pos
       = Ret (Mobile.publish idx st, [SetCurrentWordIndex idx]) /\
     idx <> Mobile.currentWordRef st /\ Mobile.wordTimingsRef st <> [].
Proof.
  intros Hidx. unfold Mobile.trackWordEffect. cbv zeta.
  destruct (Z.eqb_spec (len (Mobile.wordTimingsRef st)) 0) as [He|Hne].
  { left. split; [reflexivity|]. right. now apply len_nil_iff. }
  rewrite Hidx. cbn [bind].
  destruct (Z.eqb_spec idx (Mobile.currentWordRef st)) as [->|Hd]; cbn [negb].
  - left. auto.
  - right. split; [reflexivity|]. split; [assumption|].
    intros E. apply Hne. now apply len_nil_iff.
Qed.

Lemma handleTimeUpdate_step (st : Web.State) (t : Q) (idx : Z) :
  Web.findWordIndex (Web.wordTimings st) (t * 1000)%Q = Ret idx ->
  Web.handleTimeUpdate (Some t) st = Ret (st, []) /\ Web.wordTimings st = []
  \/ Web.handleTimeUpdate (Some t) st
       = Ret (Web.set_audioCurrentTime t st, []) /\
     idx = Web.currentWordIndex st /\ Web.wordTimings st <> []
  \/ Web.handleTimeUpdate (Some t) st
       = Ret (Web.set_audioCurrentTime t (Web.set_currentWordIndex idx st),
              [SetCurrentWordIndex idx]) /\
     idx <> Web.currentWordIndex st /\ Web.wordTimings st <> [].
Proof.
  intros Hidx. unfold Web.handleTimeUpdate. cbv zeta.
  destruct (Z.eqb_spec (len (Web.wordTimings st)) 0) as [He|Hne].
  { left. split; [reflexivity|]. now apply len_nil_iff. }
  assert (Web.wordTimings st <> []) by (intros E; apply Hne; now apply len_nil_iff).
  rewrite Hidx. cbn [bind].
  destruct (Z.eqb_spec idx (Web.currentWordIndex st)) as [->|Hd];
    cbn [negb fst snd]; auto.
Qed.

(** X6.  A position update amounts to an assignment: after it, in either
    client, the published index is the index that [findWordIndex] returns
    for that position on the loaded timings, and an index change is
    published exactly when that index differs from the one published
    before; the web handler also stores the audio clock.  On timings of at
    most [2^30] words the published index is [-1] or an index of the
    timings. *)
Theorem position_update_is_assignment :
  (forall (st st' : Mobile.State) (pos : Q) (es : list effect),
     Mobile.trackWordEffect st pos = Ret (st', es) ->
     Mobile.wordTimingsRef st <> [] ->
     Mobile.findWordIndex (Mobile.wordTimingsRef st) pos
       = Ret (Mobile.currentWordRef st') /\
     Mobile.wordTimingsRef st' = Mobile.wordTimingsRef st /\
     es = (if Mobile.currentWordRef st' =? Mobile.currentWordRef st then []
           else [SetCurrentWordIndex (Mobile.currentWordRef st')]) /\
     (fits (Mobile.wordTimingsRef st) ->
      -1 <= Mobile.currentWordRef st' <= len (Mobile.wordTimingsRef st) - 1)) /\
  (forall (st st' : Web.State) (t : Q) (es : list effect),
     Web.handleTimeUpdate (Some t) st = Ret (st', es) ->
     Web.wordTimings st <> [] ->
     Web.findWordIndex (Web.wordTimings st) (t * 1000)%Q
       = Ret (Web.currentWordIndex st') /\
     Web.wordTimings st' = Web.wordTimings st /\
     Web.audioCurrentTime st' = t /\
     es = (if Web.currentWordIndex st' =? Web.currentWordIndex st then []
           else [SetCurrentWordIndex (Web.currentWordIndex st')]) /\
     (fits (Web.wordTimings st) ->
      -1 <= Web.currentWordIndex st' <= len (Web.wordTimings st) - 1)).
Proof.
  split.
  - intros st st' pos es Hrun Hne.
    assert (exists idx, Mobile.findWordIndex (Mobile.wordTimingsRef st) pos = Ret idx)
      as [idx Hidx].
    { unfold Mobile.trackWordEffect in Hrun. cbv zeta in Hrun.
      destruct (Z.eqb_spec (len (Mobile.wordTimingsRef st)) 0) as [He|_].
      { now apply len_nil_iff in He. }
      destruct (Mobile.findWordIndex _ pos) as [idx| |]; cbn in Hrun;
        (discriminate || eauto). }
    assert (Hrange : fits (Mobile.wordTimingsRef st) ->
                     -1 <= idx <= len (Mobile.wordTimingsRef st) - 1).
    { intros Hfits.
      destruct (findWordIndex_fuel_returns (iterations (Mobile.wordTimingsRef st))
                  (Mobile.wordTimingsRef st) pos Hfits ltac:(lia))
        as (r & Hr & _ & Hin).
      unfold Mobile.findWordIndex in Hidx. rewrite Hr in Hidx.
      injection Hidx as <-.
      destruct (Z.eq_dec r (-1)); [|specialize (Hin n)]; unfold len in *; lia. }
    destruct (trackWordEffect_step st pos idx Hidx)
      as [[E [Hsame|Hnil]]|(E & Hd & _)]; rewrite E in Hrun;
      injection Hrun as <- <-; try contradiction.
    + subst idx. rewrite Z.eqb_refl. auto.
    + cbn. destruct (Z.eqb_spec idx (Mobile.currentWordRef st)); [contradiction|].
      auto.
  - intros st st' t es Hrun Hne.
    assert (exists idx, Web.findWordIndex (Web.wordTimings st) (t * 1000)%Q = Ret idx)
      as [idx Hidx].
    { unfold Web.handleTimeUpdate in Hrun. cbv zeta in Hrun.
      destruct (Z.eqb_spec (len (Web.wordTimings st)) 0) as [He|_].
      { now apply len_nil_iff in He. }
      destruct (Web.findWordIndex _ _) as [idx| |]; cbn in Hrun;
        (discriminate || eauto). }
    assert (Hrange : fits (Web.wordTimings st) ->
                     -1 <= idx <= len (Web.wordTimings st) - 1).
    { intros Hfits.
      destruct (findWordIndex_fuel_returns (iterations (Web.wordTimings st))
                  (Web.wordTimings st) (t * 1000)%Q Hfits ltac:(lia))
        as (r & Hr & _ & Hin).
      rewrite web_findWordIndex_eq in Hidx.
      unfold Mobile.findWordIndex in Hidx. rewrite Hr in Hidx.
      injection Hidx as <-.
      destruct (Z.eq_dec r (-1)); [|specialize (Hin n)]; unfold len in *; lia. }
    destruct (handleTimeUpdate_step st t idx Hidx)
      as [[E Hnil]|[(E & Hsame & _)|(E & Hd & _)]]; rewrite E in Hrun;
      injection Hrun as <- <-; try contradiction.
    + subst idx. cbn. rewrite Z.eqb_refl. auto.
    + cbn. destruct (Z.eqb_spec idx (Web.currentWordIndex st)); [contradiction|].
      auto.
Qed.

Lemma position_update_is_assignment_witness :
  Mobile.findWordIndex
    (Mobile.wordTimingsRef (Mobile.handleRead segment1 Mobile.initial)) 250
  = Ret (Mobile.currentWordRef
           (Mobile.publish 1 (Mobile.handleRead segment1 Mobile.initial))).
Proof.
  apply (proj1 position_update_is_assignment
           (Mobile.handleRead segment1 Mobile.initial)
           (Mobile.publish 1 (Mobile.handleRead segment1 Mobile.initial))
           250%Q [SetCurrentWordIndex 1]);
    [vm_compute; reflexivity | discriminate].
Defined.

Lemma trackAll_cons (st : Mobile.State) (p : Q) (ps : list Q) :
  Mobile.trackAll st (p :: ps) =
  let* r := Mobile.trackWordEffect st p in
  let* r' := Mobile.trackAll (fst r) ps in
  Ret (fst r', snd r ++ snd r').
Proof. reflexivity. Qed.

(** X7.  However the position moves, the mobile reader never publishes
    the same index twice in a row: each published index differs from the
    one published before it, the first from the index held at the start,
    and the index held at the end is the last one published. *)
Theorem mobile_trace_stutter_free (positions : list Q) :
  forall (st st' : Mobile.State) (es : list effect),
    Mobile.trackAll st positions = Ret (st', es) ->
    stutter_free (Mobile.currentWordRef st) (published es) /\
    Mobile.currentWordRef st'
      = default (Mobile.currentWordRef st) (last (published es)).
Proof.
  induction positions as [|p ps IH]; intros st st' es Hrun.
  { injection Hrun as <- <-. split; [exact I | reflexivity]. }
  rewrite trackAll_cons in Hrun. cbv zeta in Hrun.
  destruct (Mobile.trackWordEffect st p) as [[st1 es1]| |] eqn:Hstep;
    cbn [bind fst snd] in Hrun; try discriminate.
  destruct (Mobile.trackAll st1 ps) as [[st2 es2]| |] eqn:Hrest;
    cbn [bind fst snd] in Hrun; try discriminate.
  injection Hrun as <- <-. rewrite published_app.
  destruct (IH st1 st2 es2 Hrest) as [Hfree Hlast].
  assert (Hcases : es1 = [] /\ st1 = st \/
                   exists idx, es1 = [SetCurrentWordIndex idx] /\
                     st1 = Mobile.publish idx st /\ idx <> Mobile.currentWordRef st).
  { unfold Mobile.trackWordEffect in Hstep. cbv zeta in Hstep.
    destruct (len (Mobile.wordTimingsRef st) =? 0).
    { injection Hstep as <- <-. auto. }
    destruct (Mobile.findWordIndex _ p) as [idx| |]; cbn [bind] in Hstep;
      try discriminate.
    destruct (Z.eqb_spec idx (Mobile.currentWordRef st)); cbn [negb] in Hstep;
      injection Hstep as <- <-; eauto. }
  destruct Hcases as [[-> ->]|(idx & -> & -> & Hd)]; cbn [published app].
  - split; assumption.
  - cbn in Hfree, Hlast. split; [split; assumption|].
    rewrite Hlast. destruct (published es2) as [|z l]; [reflexivity|].
    change (last (idx :: z :: l)) with (last (z :: l)).
    destruct (last (z :: l)) eqn:El; [reflexivity|].
    apply last_None in El. discriminate.
Qed.

Lemma mobile_trace_stutter_free_witness :
  stutter_free
    (Mobile.currentWordRef (Mobile.handleRead segment1 Mobile.initial))
    (published [SetCurrentWordIndex 0; SetCurrentWordIndex 2;
                SetCurrentWordIndex 0]).
Proof.
  apply (mobile_trace_stutter_free [100; 150; 600; 600; 20]%Q
           (Mobile.handleRead segment1 Mobile.initial)
           (Mobile.publish 0 (Mobile.handleRead segment1 Mobile.initial))
           [SetCurrentWordIndex 0; SetCurrentWordIndex 2; SetCurrentWordIndex 0]).
  vm_compute. reflexivity.
Defined.

Lemma forward_tail (p : Q) (ps : list Q) :
  forward (p :: ps) = true -> forward ps = true.
Proof.
  cbn [forward]. intros H. apply andb_true_iff in H as [_ H]. exact H.
Qed.

Lemma forward_head_le (ps : list Q) : forall p : Q,
  forward (p :: ps) = true -> forall q, In q ps -> (p <= q)%Q.
Proof.
  induction ps as [|p' ps IH]; intros p H q Hq; [destruct Hq|].
  pose proof (forward_tail _ _ H) as Ht. cbn [forward] in H.
  apply andb_true_iff in H as [H _]. apply Qle_bool_iff in H.
  destruct Hq as [<-|Hq]; [exact H|].
  specialize (IH p' Ht q Hq). lra.
Qed.

(** The lookup is monotone on ordered spans, and its results are [-1] or
    indices of the array. *)
Lemma lookup_monotone (timings : list WordTiming) (pos1 pos2 : Q) :
  fits timings -> spans_ordered timings = true -> (pos1 <= pos2)%Q ->
  exists i1 i2,
    Mobile.findWordIndex timings pos1 = Ret i1 /\
    Mobile.findWordIndex timings pos2 = Ret i2 /\
    -1 <= i1 /\ i1 <= i2 /\ i2 <= len timings - 1.
Proof.
  intros Hfits Hord Hle.
  destruct (findWordIndex_fuel_returns (iterations timings) timings pos1 Hfits
              ltac:(lia)) as (r1 & Hr1 & _ & Hrange1).
  destruct (findWordIndex_fuel_returns (iterations timings) timings pos2 Hfits
              ltac:(lia)) as (r2 & Hr2 & _ & Hrange2).
  exists r1, r2. split; [exact Hr1|]. split; [exact Hr2|].
  assert (-1 <= r1) by (destruct (Z.eq_dec r1 (-1)); [|specialize (Hrange1 n)]; lia).
  assert (-1 <= r2 <= len timings - 1)
    by (destruct (Z.eq_dec r2 (-1)); [|specialize (Hrange2 n)]; unfold len in *; lia).
  split; [assumption|]. split; [|lia].
  destruct (head timings) as [first|] eqn:Hhead.
  2:{ destruct timings; [|discriminate]. cbv in Hr1, Hr2. congruence. }
  destruct (lt_spec pos1 (start first)) as [Hlt|Hge].
  { rewrite (findWordIndex_fuel_before_first _ _ _ _ Hhead Hlt) in Hr1.
    injection Hr1 as <-. lia. }
  rewrite head_item in Hhead.
  destruct (floor_exists timings pos1 first Hhead ltac:(lra)) as (i1 & Hi1 & Hf1).
  destruct (floor_exists timings pos2 first Hhead ltac:(lra)) as (i2 & Hi2 & Hf2).
  pose proof (findWordIndex_floor _ _ _ Hfits Hord Hf1) as E1.
  pose proof (findWordIndex_floor _ _ _ Hfits Hord Hf2) as E2.
  unfold Mobile.findWordIndex in E1, E2. rewrite E1 in Hr1. rewrite E2 in Hr2.
  injection Hr1 as <-. injection Hr2 as <-.
  destruct (Z.le_gt_cases i1 i2) as [|Hc]; [assumption|].
  destruct Hf1 as [(a1 & Ha1 & Hs1) _], Hf2 as [_ Hnext2].
  destruct (item_in_range timings (i2 + 1) ltac:(lia)) as [n' Hn].
  pose proof (Hnext2 n' Hn).
  pose proof (spans_ordered_sorted _ Hord (i2 + 1) i1 n' a1 Hn Ha1 ltac:(lia)).
  lra.
Qed.

Lemma ascending_bound (hi : Z) (l : list Z) : forall prev : Z,
  ascending prev l -> Forall (fun i => i <= hi) l -> prev <= hi ->
  Z.of_nat (length l) <= hi - prev.
Proof.
  induction l as [|i l IH]; intros prev Hasc Hall Hprev; [cbn; lia|].
  destruct Hasc as [Hlt Hasc]. inversion Hall as [|? ? Hi Hall']; subst.
  specialize (IH i Hasc Hall' Hi). cbn [length]. lia.
Qed.

Lemma ascending_weaken (l : list Z) (prev prev' : Z) :
  prev' <= prev -> ascending prev l -> ascending prev' l.
Proof. destruct l; cbn; [auto|]. intros ? [? ?]. split; [lia | assumption]. Qed.

(** While the position only moves forward over ordered spans, the indices
    that the mobile reader publishes only go up. *)
Lemma trackAll_forward (timings : list WordTiming) (positions : list Q) :
  fits timings -> spans_ordered timings = true ->
  forall (st : Mobile.State) (p0 : Q),
    Mobile.wordTimingsRef st = timings ->
    Mobile.findWordIndex timings p0 = Ret (Mobile.currentWordRef st)
      \/ Mobile.currentWordRef st = -1 ->
    forward (p0 :: positions) = true \/ Mobile.currentWordRef st = -1 ->
    forward positions = true ->
    exists st' es,
      Mobile.trackAll st positions = Ret (st', es) /\
      ascending (Mobile.currentWordRef st) (published es) /\
      Forall (fun i => Mobile.currentWordRef st < i <= len timings - 1)
        (published es).
Proof.
  intros Hfits Hord.
  induction positions as [|p ps IH]; intros st p0 HT Hcur Hfwd0 Hfwd.
  { exists st, []. split; [reflexivity|]. split; [exact I | constructor]. }
  assert (Hlow : exists idx, Mobile.findWordIndex timings p = Ret idx /\
                   Mobile.currentWordRef st <= idx <= len timings - 1).
  { destruct Hfwd0 as [Hf|Hm].
    - destruct Hcur as [Hcur|Hm].
      + pose proof (forward_head_le _ _ Hf p (or_introl eq_refl)) as Hle.
        destruct (lookup_monotone timings p0 p Hfits Hord Hle)
          as (i1 & i2 & H1 & H2 & ? & ? & ?).
        exists i2. split; [assumption|]. rewrite Hcur in H1.
        injection H1 as <-. lia.
      + destruct (lookup_monotone timings p p Hfits Hord ltac:(lra))
          as (i1 & i2 & H1 & H2 & ? & ? & ?).
        exists i2. split; [assumption|]. lia.
    - destruct (lookup_monotone timings p p Hfits Hord ltac:(lra))
        as (i1 & i2 & H1 & H2 & ? & ? & ?).
      exists i2. split; [assumption|]. lia. }
  destruct Hlow as (idx & Hidx & Hrange).
  rewrite trackAll_cons. cbv zeta.
  assert (Hidx' : Mobile.findWordIndex (Mobile.wordTimingsRef st) p = Ret idx)
    by (now rewrite HT).
  destruct (trackWordEffect_step st p idx Hidx') as [[E Hsame]|(E & Hd & _)];
    rewrite E; cbn [bind fst snd].
  - assert (Hroot : idx = Mobile.currentWordRef st).
    { destruct Hsame as [|Hnil]; [assumption|].
      rewrite Hnil in Hidx'. cbv in Hidx'. injection Hidx' as <-.
      destruct Hcur as [Hc|Hc]; [|now rewrite Hc].
      rewrite <- HT, Hnil in Hc. cbv in Hc. now injection Hc. }
    destruct (IH st p HT) as (st' & es & -> & Hasc & Hall).
    + left. now rewrite <- Hroot.
    + left. exact Hfwd.
    + eapply forward_tail; eauto.
    + exists st', es. cbn [bind fst snd app]. auto.
  - destruct (IH (Mobile.publish idx st) p HT) as (st' & es & -> & Hasc & Hall).
    + left. exact Hidx.
    + left. exact Hfwd.
    + eapply forward_tail; eauto.
    + exists st', (SetCurrentWordIndex idx :: es). cbn [bind fst snd app published].
      split; [reflexivity|]. cbn in Hasc, Hall.
      split; [split; [lia | assumption]|].
      constructor; [lia|]. eapply Forall_impl; [exact Hall|]. cbn. lia.
Qed.

(** X8.  Forward playback highlights each word at most once: from a
    freshly loaded segment with ordered spans, positions that never move
    backward make the mobile reader publish strictly increasing indices of
    the segment, so no more index changes than the segment has words. *)
Theorem forward_playback_publishes_ascending (st : Mobile.State)
    (positions : list Q) :
  fits (Mobile.wordTimingsRef st) ->
  spans_ordered (Mobile.wordTimingsRef st) = true ->
  Mobile.currentWordRef st = -1 -> forward positions = true ->
  exists st' es,
    Mobile.trackAll st positions = Ret (st', es) /\
    ascending (-1) (published es) /\
    Forall (fun i => 0 <= i <= len (Mobile.wordTimingsRef st) - 1) (published es) /\
    (length (published es) <= length (Mobile.wordTimingsRef st))%nat.
Proof.
  intros Hfits Hord Hcur Hfwd.
  destruct (trackAll_forward _ positions Hfits Hord st 0%Q eq_refl
              (or_intror Hcur) (or_intror Hcur) Hfwd)
    as (st' & es & Hrun & Hasc & Hall).
  rewrite Hcur in Hasc, Hall. exists st', es. split; [assumption|].
  split; [assumption|]. split.
  - eapply Forall_impl; [exact Hall|]. cbn. lia.
  - assert (Hall' : Forall (fun i => i <= len (Mobile.wordTimingsRef st) - 1)
                      (published es))
      by (eapply Forall_impl; [exact Hall|]; cbn; lia).
    pose proof (ascending_bound _ _ _ Hasc Hall' ltac:(unfold len; lia)).
    unfold len in *. lia.
Qed.

Lemma forward_playback_publishes_ascending_witness :
  exists st' es,
    Mobile.trackAll (Mobile.handleRead segment1 Mobile.initial)
      [100; 150; 150; 600]%Q = Ret (st', es) /\
    ascending (-1) (published es) /\
    Forall (fun i => 0 <= i <= len scenario1 - 1) (published es) /\
    (length (published es) <= length scenario1)%nat.
Proof.
  apply (forward_playback_publishes_ascending
           (Mobile.handleRead segment1 Mobile.initial) [100; 150; 150; 600]%Q);
    [unfold fits, len; cbn; lia | reflexivity | reflexivity | reflexivity].
Defined.

(** ** Whole parts of numbers *)

Lemma Qfloor_unique (x : Q) (n : Z) :
  (inject_Z n <= x)%Q -> (x < inject_Z (n + 1))%Q -> Qfloor x = n.
Proof.
  intros Hle Hlt.
  pose proof (Qfloor_le x) as H1. pose proof (Qlt_floor x) as H2.
  assert (inject_Z n < inject_Z (Qfloor x + 1))%Q as A by lra.
  assert (inject_Z (Qfloor x) < inject_Z (n + 1))%Q as B by lra.
  rewrite <- Zlt_Qlt in A, B. lia.
Qed.

Lemma Qfloor_nonneg (x : Q) : (0 <= x)%Q -> 0 <= Qfloor x.
Proof. intros H. apply (Qfloor_resp_le 0 x) in H. exact H. Qed.

Lemma Qfloor_sub_Z (x : Q) (k : Z) :
  Qfloor (x - inject_Z k) = Qfloor x - k.
Proof.
  apply Qfloor_unique.
  - pose proof (Qfloor_le x). unfold Z.sub. rewrite inject_Z_plus, inject_Z_opp. lra.
  - pose proof (Qlt_floor x) as H.
    replace (Qfloor x - k + 1) with ((Qfloor x + 1) + - k) by lia.
    rewrite inject_Z_plus, inject_Z_opp. lra.
Qed.

Lemma Qfloor_div_pos (x : Q) (d : Z) :
  0 < d -> Qfloor (x / inject_Z d) = Qfloor x / d.
Proof.
  intros Hd. assert (0 < inject_Z d)%Q as Hd'
    by (change (inject_Z 0 < inject_Z d)%Q; rewrite <- Zlt_Qlt; exact Hd).
  pose proof (Qfloor_le x) as H1. pose proof (Qlt_floor x) as H2.
  pose proof (Z.div_mod (Qfloor x) d ltac:(lia)) as E.
  pose proof (Z.mod_pos_bound (Qfloor x) d Hd) as B.
  set (f := Qfloor x) in *. set (q := f / d) in *. set (r := f mod d) in *.
  apply Qfloor_unique.
  - apply Qle_shift_div_l; [exact Hd'|].
    assert (d * q <= f) as A by lia. rewrite Zle_Qle in A.
    rewrite inject_Z_mult in A. lra.
  - apply Qlt_shift_div_r; [exact Hd'|].
    assert (f + 1 <= (q + 1) * d) as A by lia.
    rewrite Zle_Qle, inject_Z_mult in A. fold f in H2. lra.
Qed.

(** ** Clock texts *)

Lemma padStart_two_digits (n : nat) :
  (n < 60)%nat ->
  padStart 2 "0" (toString (Z.of_nat n)) = two_digits (Z.of_nat n).
Proof.
  intros H. do 60 (destruct n as [|n]; [reflexivity|]). lia.
Qed.

Lemma mobile_formatTime_fields (ms : Q) :
  (0 <= ms)%Q ->
  PdfViewerScreen.formatTime ms =
    (toString (Qfloor (ms / 1000) / 60) ++ ":"
     ++ two_digits (Qfloor (ms / 1000) mod 60))%string.
Proof.
  intros Hms. unfold PdfViewerScreen.formatTime, Math_floor. cbv zeta.
  assert (0 <= Qfloor (ms / 1000)) as HT.
  { apply Qfloor_nonneg. apply Qle_shift_div_l; lra. }
  set (T := Qfloor (ms / 1000)) in *.
  change 60%Q with (inject_Z 60). rewrite <- Zdiv_Qdiv.
  rewrite Z.rem_mod_nonneg by lia.
  pose proof (Z.mod_pos_bound T 60 ltac:(lia)) as B.
  rewrite <- (Z2Nat.id (T mod 60)) by lia.
  rewrite padStart_two_digits by lia. reflexivity.
Qed.

Lemma web_formatTime_fields (seconds : Q) :
  (0 <= seconds)%Q ->
  Home.formatTime seconds =
    (toString (Qfloor seconds / 60) ++ ":"
     ++ two_digits (Qfloor seconds mod 60))%string.
Proof.
  intros Hs. unfold Home.formatTime, Math_floor, rem, trunc. cbv zeta.
  assert (0 <= Qfloor seconds) as HF by now apply Qfloor_nonneg.
  destruct (lt_spec (seconds / 60) 0) as [Hneg|_].
  { exfalso. assert (0 <= seconds / 60)%Q by (apply Qle_shift_div_l; lra). lra. }
  change 60%Q with (inject_Z 60). rewrite (Qfloor_div_pos seconds 60) by lia.
  set (F := Qfloor seconds) in *.
  assert (Qfloor (seconds - inject_Z 60 * inject_Z (F / 60)) = F mod 60) as ->.
  { rewrite (Qfloor_comp _ (seconds - inject_Z (60 * (F / 60)))).
    - rewrite Qfloor_sub_Z. fold F. rewrite Z.mod_eq by lia. reflexivity.
    - rewrite inject_Z_mult. reflexivity. }
  pose proof (Z.mod_pos_bound F 60 ltac:(lia)) as B.
  rewrite <- (Z2Nat.id (F mod 60)) by lia.
  rewrite padStart_two_digits by lia. reflexivity.
Qed.

Lemma toString_inj (x y : Z) : toString x = toString y -> x = y.
Proof.
  assert (forall n, NilZero.int_of_string (toString n) = Some (Z.to_int n)) as Hparse.
  { intros n. unfold toString. apply NilZero.isi.
    - intros E. assert (n = 0) by (rewrite <- (of_to n), E; reflexivity).
      subst n. discriminate E.
    - intros E. assert (n = 0) by (rewrite <- (of_to n), E; reflexivity).
      subst n. discriminate E. }
  intros E. apply to_int_inj.
  pose proof (Hparse x) as Hx. rewrite E, Hparse in Hx. congruence.
Qed.

Lemma string_length_append (s t : string) :
  String.length (s ++ t) = (String.length s + String.length t)%nat.
Proof. induction s as [|c s IH]; cbn; [reflexivity | now rewrite IH]. Qed.

Lemma string_append_inj_suffix (s1 : string) : forall s2 t1 t2 : string,
  String.length t1 = String.length t2 ->
  (s1 ++ t1 = s2 ++ t2)%string -> s1 = s2 /\ t1 = t2.
Proof.
  induction s1 as [|c s1 IH]; intros [|d s2] t1 t2 Hlen E; cbn in E.
  - auto.
  - exfalso. apply (f_equal String.length) in E. cbn in E.
    rewrite string_length_append in E. lia.
  - exfalso. apply (f_equal String.length) in E. cbn in E.
    rewrite string_length_append in E. lia.
  - injection E as -> E. destruct (IH s2 t1 t2 Hlen E) as [-> ->]. auto.
Qed.

Lemma two_digits_inj (x y : nat) :
  (x < 60)%nat -> (y < 60)%nat ->
  two_digits (Z.of_nat x) = two_digits (Z.of_nat y) -> x = y.
Proof.
  intros Hx Hy E.
  assert (forall n, (n < 60)%nat ->
            nat_of_ascii (digit (Z.of_nat n / 10)) = (48 + n / 10)%nat /\
            nat_of_ascii (digit (Z.of_nat n mod 10)) = (48 + n mod 10)%nat) as Hd.
  { intros n Hn. do 60 (destruct n as [|n]; [split; reflexivity|]). lia. }
  unfold two_digits in E. injection E as E1 E2.
  apply (f_equal nat_of_ascii) in E1, E2.
  destruct (Hd x Hx) as [A1 A2], (Hd y Hy) as [B1 B2].
  rewrite A1, B1 in E1. rewrite A2, B2 in E2.
  rewrite (Nat.div_mod_eq x 10), (Nat.div_mod_eq y 10). lia.
Qed.

(** X9.  For a position that is not negative the mobile clock text is
    the whole minutes, a colon, and the remaining whole seconds written
    with exactly two digits: for some [m] and [sec] below sixty with
    [60 * m + sec] the whole seconds of the position. *)
Theorem mobile_formatTime_shape (ms : Q) :
  (0 <= ms)%Q ->
  exists m sec : Z,
    0 <= m /\ 0 <= sec < 60 /\ 60 * m + sec = Qfloor (ms / 1000) /\
    PdfViewerScreen.formatTime ms
      = (toString m ++ ":" ++ two_digits sec)%string /\
    String.length (two_digits sec) = 2%nat.
Proof.
  intros Hms. rewrite mobile_formatTime_fields by assumption.
  assert (0 <= Qfloor (ms / 1000)) as HT.
  { apply Qfloor_nonneg. apply Qle_shift_div_l; lra. }
  set (T := Qfloor (ms / 1000)) in *.
  exists (T / 60), (T mod 60).
  pose proof (Z.mod_pos_bound T 60 ltac:(lia)).
  pose proof (Z.div_mod T 60 ltac:(lia)).
  pose proof (Z.div_pos T 60 HT ltac:(lia)).
  repeat split; (lia || reflexivity).
Qed.

Lemma mobile_formatTime_shape_witness :
  exists m sec : Z,
    0 <= m /\ 0 <= sec < 60 /\ 60 * m + sec = Qfloor (61500 / 1000) /\
    PdfViewerScreen.formatTime 61500
      = (toString m ++ ":" ++ two_digits sec)%string /\
    String.length (two_digits sec) = 2%nat.
Proof.
  apply (mobile_formatTime_shape 61500). unfold Qle. cbn. lia.
Defined.

(** X10.  Both clients show the same clock text for the same moment: the
    web text for a time in seconds is the mobile text for that time in
    milliseconds, for every time that is not negative. *)
Theorem clock_texts_agree (seconds : Q) :
  (0 <= seconds)%Q ->
  Home.formatTime seconds = PdfViewerScreen.formatTime (seconds * 1000).
Proof.
  intros Hs. rewrite web_formatTime_fields by assumption.
  rewrite mobile_formatTime_fields by lra.
  rewrite (Qfloor_comp (seconds * 1000 / 1000) seconds); [reflexivity|].
  field.
Qed.

Lemma clock_texts_agree_witness :
  Home.formatTime 61.5 = PdfViewerScreen.formatTime (61.5 * 1000).
Proof.
  apply (clock_texts_agree 61.5). unfold Qle. cbn. lia.
Defined.

(** X11.  The mobile clock text tells the whole second: two positions
    that are not negative get the same text exactly when they lie in the
    same whole second. *)
Theorem mobile_formatTime_identifies_second (a b : Q) :
  (0 <= a)%Q -> (0 <= b)%Q ->
  PdfViewerScreen.formatTime a = PdfViewerScreen.formatTime b
  <-> Qfloor (a / 1000) = Qfloor (b / 1000).
Proof.
  intros Ha Hb. rewrite !mobile_formatTime_fields by assumption.
  assert (0 <= Qfloor (a / 1000)) as HA
    by (apply Qfloor_nonneg; apply Qle_shift_div_l; lra).
  assert (0 <= Qfloor (b / 1000)) as HB
    by (apply Qfloor_nonneg; apply Qle_shift_div_l; lra).
  set (A := Qfloor (a / 1000)) in *. set (B := Qfloor (b / 1000)) in *.
  split; [|now intros ->].
  intros E. apply string_append_inj_suffix in E as [Em Es]; [|reflexivity].
  apply toString_inj in Em. injection Es as Es1 Es2.
  pose proof (Z.mod_pos_bound A 60 ltac:(lia)) as BA.
  pose proof (Z.mod_pos_bound B 60 ltac:(lia)) as BB.
  assert (two_digits (Z.of_nat (Z.to_nat (A mod 60)))
          = two_digits (Z.of_nat (Z.to_nat (B mod 60)))) as Et.
  { rewrite !Z2Nat.id by lia. unfold two_digits. now rewrite Es1, Es2. }
  apply two_digits_inj in Et; [|lia..].
  rewrite (Z.div_mod A 60), (Z.div_mod B 60) by lia. lia.
Qed.

Lemma mobile_formatTime_identifies_second_witness :
  PdfViewerScreen.formatTime 61500 = PdfViewerScreen.formatTime 61999
  <-> Qfloor (61500 / 1000) = Qfloor (61999 / 1000).
Proof.
  apply (mobile_formatTime_identifies_second 61500 61999);
    unfold Qle; cbn; lia.
Defined.

(** ** The timeline of the mobile player *)

Lemma strict_eq_spec (a b : Q) : reflect (a == b)%Q (strict_eq a b).
Proof.
  unfold strict_eq. destruct (Qeq_bool a b) eqn:E; constructor.
  - now apply Qeq_bool_iff.
  - intros H. apply Qeq_bool_iff in H. congruence.
Qed.




(** ** The page buttons of the mobile reader *)

(** X13.  In a document that has pages, the minus and plus buttons keep
    the start page between 1 and the number of pages, however they are
    pressed; minus stops at page 1 and plus at the last page. *)
Theorem page_buttons_stay_in_document (totalPages startPage : Z)
    (presses : list PdfViewerScreen.pageButton) :
  1 <= totalPages -> 1 <= startPage <= totalPages ->
  1 <= foldl (PdfViewerScreen.pressPage totalPages) startPage presses
    <= totalPages /\
  PdfViewerScreen.pressPage totalPages 1 PdfViewerScreen.Minus = 1 /\
  PdfViewerScreen.pressPage totalPages totalPages PdfViewerScreen.Plus
    = totalPages.
Proof.
  intros Htotal Hstart. split; [|cbn; lia].
  revert startPage Hstart.
  induction presses as [|b presses IH]; intros startPage Hstart; [exact Hstart|].
  cbn [foldl]. apply IH. destruct b; cbn; lia.
Qed.

Lemma page_buttons_stay_in_document_witness :
  1 <= foldl (PdfViewerScreen.pressPage 3) 1
         [PdfViewerScreen.Minus; PdfViewerScreen.Plus; PdfViewerScreen.Plus;
          PdfViewerScreen.Plus] <= 3 /\
  PdfViewerScreen.pressPage 3 1 PdfViewerScreen.Minus = 1 /\
  PdfViewerScreen.pressPage 3 3 PdfViewerScreen.Plus = 3.
Proof.
  apply (page_buttons_stay_in_document 3 1
           [PdfViewerScreen.Minus; PdfViewerScreen.Plus; PdfViewerScreen.Plus;
            PdfViewerScreen.Plus]); lia.
Defined.

(** ** How the words are drawn *)

(** X14.  Each word of the mobile reader gets at most one of the styles
    active, recent and past: active is the current word, recent are the
    three words before it, past are the earlier ones, and the words after
    it get none.  The web reader marks the same word as current, and as
    read exactly the words that the mobile reader draws recent or past. *)
Theorem word_styles_partition (i currentWordIndex : Z) :
  (PdfViewerScreen.wordStyles i currentWordIndex = [PdfViewerScreen.wordActive]
   <-> i = currentWordIndex) /\
  (PdfViewerScreen.wordStyles i currentWordIndex = [PdfViewerScreen.wordRecent]
   <-> currentWordIndex - 3 <= i < currentWordIndex) /\
  (PdfViewerScreen.wordStyles i currentWordIndex = [PdfViewerScreen.wordPast]
   <-> i < currentWordIndex - 3) /\
  (PdfViewerScreen.wordStyles i currentWordIndex = []
   <-> currentWordIndex < i) /\
  (Home.wordClassOf i currentWordIndex = Home.current <-> i = currentWordIndex) /\
  (Home.wordClassOf i currentWordIndex = Home.read <-> i < currentWordIndex) /\
  (Home.wordClassOf i currentWordIndex = Home.upcoming <-> currentWordIndex < i).
Proof.
  unfold PdfViewerScreen.wordStyles, Home.wordClassOf.
  destruct (Z.eqb_spec i currentWordIndex), (Z.ltb_spec i currentWordIndex),
    (Z.leb_spec (currentWordIndex - 3) i), (Z.ltb_spec i (currentWordIndex - 3));
    cbn; repeat split; intros; try lia; try discriminate; try reflexivity.
Qed.

(** ** Favourites *)

Lemma has_In (id : string) (set : list string) :
  Home.has id set = true <-> In id set.
Proof.
  unfold Home.has. rewrite existsb_exists. split.
  - intros (x & Hx & E). apply String.eqb_eq in E. now subst.
  - intros H. exists id. split; [assumption | apply String.eqb_refl].
Qed.

Lemma has_false (id : string) (set : list string) :
  Home.has id set = false <-> ~ In id set.
Proof.
  rewrite <- has_In. destruct (Home.has id set); split; congruence.
Qed.

Lemma In_remove (id x : string) (set : list string) :
  In x (List.filter (fun y => negb (String.eqb y id)) set) <-> In x set /\ x <> id.
Proof.
  rewrite filter_In. rewrite negb_true_iff, String.eqb_neq. reflexivity.
Qed.

Lemma remove_absent (id : string) (set : list string) :
  ~ In id set -> List.filter (fun y => negb (String.eqb y id)) set = set.
Proof.
  induction set as [|a set IH]; intros H; [reflexivity|]. cbn.
  destruct (String.eqb_spec a id) as [->|_]; cbn.
  - exfalso. apply H. now left.
  - f_equal. apply IH. intros Hin. apply H. now right.
Qed.

Lemma remove_app_absent (id : string) (set : list string) :
  ~ In id set ->
  List.filter (fun y => negb (String.eqb y id)) (set ++ [id]) = set.
Proof.
  intros H. rewrite List.filter_app, remove_absent by assumption. cbn.
  rewrite String.eqb_refl. cbn. apply app_nil_r.
Qed.

Lemma remove_readd (id : string) (set : list string) :
  NoDup set -> In id set ->
  Permutation (List.filter (fun y => negb (String.eqb y id)) set ++ [id]) set.
Proof.
  induction set as [|a set IH]; intros Hnd Hin; [destruct Hin|].
  apply NoDup_cons in Hnd as [Ha Hnd]. cbn.
  destruct (String.eqb_spec a id) as [->|Hne]; cbn.
  - rewrite remove_absent.
    + symmetry. apply Permutation_cons_append.
    + intros Hin'. apply Ha. now apply list_elem_of_In.
  - constructor. apply IH; [assumption|]. destruct Hin; congruence.
Qed.

(** X15.  Toggling a favourite flips the membership of that document and
    of no other, and keeps the set free of duplicates; toggling twice
    gives back the same favourites, in the same order when the document
    was not a favourite before and with the document moved to the end
    when it was. *)
Theorem toggleFavorite_flips (pdfId : string) (prev : list string) :
  NoDup prev ->
  NoDup (Home.toggleFavorite pdfId prev) /\
  Home.has pdfId (Home.toggleFavorite pdfId prev) = negb (Home.has pdfId prev) /\
  (forall id, id <> pdfId ->
     Home.has id (Home.toggleFavorite pdfId prev) = Home.has id prev) /\
  Permutation (Home.toggleFavorite pdfId (Home.toggleFavorite pdfId prev)) prev /\
  (Home.has pdfId prev = false ->
   Home.toggleFavorite pdfId (Home.toggleFavorite pdfId prev) = prev).
Proof.
  intros Hnd. unfold Home.toggleFavorite at 1 2 3 5 7.
  destruct (Home.has pdfId prev) eqn:Hhas.
  - apply has_In in Hhas.
    set (rest := List.filter (fun id => negb (String.eqb id pdfId)) prev).
    assert (~ In pdfId rest) as Hout by (unfold rest; rewrite In_remove; tauto).
    split; [|split; [|split; [|split]]].
    + unfold rest. apply NoDup_ListNoDup, List.NoDup_filter.
      now apply NoDup_ListNoDup.
    + now apply has_false.
    + intros id Hne. unfold rest.
      destruct (Home.has id prev) eqn:E.
      * apply has_In. apply has_In in E. apply In_remove. auto.
      * apply has_false. apply has_false in E. rewrite In_remove. tauto.
    + unfold Home.toggleFavorite. apply has_false in Hout. rewrite Hout.
      unfold rest. now apply remove_readd.
    + discriminate.
  - apply has_false in Hhas.
    split; [|split; [|split; [|split]]].
    + apply NoDup_app. split; [assumption|]. split; [|apply NoDup_singleton].
      intros x Hx Hx'. apply list_elem_of_In in Hx.
      apply list_elem_of_singleton in Hx'. subst. contradiction.
    + apply has_In. apply in_or_app. right. now left.
    + intros id Hne. destruct (Home.has id prev) eqn:E.
      * apply has_In. apply has_In in E. apply in_or_app. now left.
      * apply has_false. apply has_false in E. intros Hin.
        apply in_app_or in Hin as [|[|[]]]; congruence.
    + unfold Home.toggleFavorite.
      assert (Home.has pdfId (prev ++ [pdfId]) = true) as ->
        by (apply has_In, in_or_app; right; now left).
      now rewrite remove_app_absent.
    + intros _. unfold Home.toggleFavorite.
      assert (Home.has pdfId (prev ++ [pdfId]) = true) as ->
        by (apply has_In, in_or_app; right; now left).
      now apply remove_app_absent.
Qed.

Lemma toggleFavorite_flips_witness :
  NoDup ["a"; "b"; "c"]%string /\
  Permutation
    (Home.toggleFavorite "b" (Home.toggleFavorite "b" ["a"; "b"; "c"]%string))
    ["a"; "b"; "c"]%string.
Proof.
  assert (NoDup ["a"; "b"; "c"]%string) as Hnd.
  { apply NoDup_ListNoDup. repeat constructor; cbn; intuition discriminate. }
  split; [exact Hnd|].
  apply (proj1 (proj2 (proj2 (proj2
           (toggleFavorite_flips "b" ["a"; "b"; "c"]%string Hnd))))).
Defined.

Lemma setOf_fold (ids : list string) : forall acc : list string,
  NoDup (acc ++ ids) ->
  foldl (fun acc id => if Home.has id acc then acc else acc ++ [id]) acc ids
  = acc ++ ids.
Proof.
  induction ids as [|id ids IH]; intros acc Hnd; cbn [foldl].
  { now rewrite app_nil_r. }
  assert (Home.has id acc = false) as ->.
  { apply has_false. intros Hin. apply NoDup_app in Hnd as (_ & Hdis & _).
    apply (Hdis id); [now apply list_elem_of_In | left]. }
  rewrite IH; rewrite <- app_assoc; [reflexivity | exact Hnd].
Qed.

Lemma setOf_fold_NoDup (ids : list string) : forall acc : list string,
  NoDup acc ->
  NoDup (foldl (fun acc id => if Home.has id acc then acc else acc ++ [id])
           acc ids).
Proof.
  induction ids as [|id ids IH]; intros acc Hnd; cbn [foldl]; [assumption|].
  apply IH. destruct (Home.has id acc) eqn:E; [assumption|].
  apply has_false in E. apply NoDup_app. split; [assumption|].
  split; [|apply NoDup_singleton].
  intros x Hx Hx'. apply list_elem_of_In in Hx.
  apply list_elem_of_singleton in Hx'. subst. contradiction.
Qed.

(** X16.  The favourites survive a reload: what [toggleFavorite] writes to
    local storage is read back on mount as the same favourites in the
    same order; and whatever array is found in storage, the favourites
    read from it hold no document twice. *)
Theorem favourites_survive_reload :
  (forall (pdfId : string) (prev : list string),
     NoDup prev ->
     Home.loadFavorites (Some (Home.toggleFavorite pdfId prev))
       = Home.toggleFavorite pdfId prev) /\
  (forall saved : option (list string), NoDup (Home.loadFavorites saved)) /\
  Home.loadFavorites None = [].
Proof.
  split; [|split; [|reflexivity]].
  - intros pdfId prev Hnd. unfold Home.loadFavorites, Home.setOf.
    apply (setOf_fold _ []). cbn [app].
    unfold Home.toggleFavorite. destruct (Home.has pdfId prev) eqn:E.
    + apply NoDup_ListNoDup, List.NoDup_filter. now apply NoDup_ListNoDup.
    + apply has_false in E. apply NoDup_app. split; [assumption|].
      split; [|apply NoDup_singleton].
      intros x Hx Hx'. apply list_elem_of_In in Hx.
      apply list_elem_of_singleton in Hx'. subst. contradiction.
  - intros [ids|]; cbn; [|constructor].
    apply setOf_fold_NoDup. constructor.
Qed.

(** ** The reading streak *)

Lemma streakLoop_run (readOn : nat -> bool) (todo : nat) :
  forall i streak : nat, (0 < i)%nat ->
  exists run : nat,
    Home.streakLoop readOn todo i streak = (streak + run)%nat /\
    (run <= todo)%nat /\
    (forall k, (k < run)%nat -> readOn (i + k)%nat = true) /\
    ((run < todo)%nat -> readOn (i + run)%nat = false).
Proof.
  induction todo as [|todo IH]; intros i streak Hi; cbn [Home.streakLoop].
  { exists 0%nat. split; [lia|]. split; [lia|]. split; intros; lia. }
  destruct (readOn i) eqn:E.
  - destruct (IH (S i) (S streak) ltac:(lia)) as (run & -> & Hle & Hall & Hend).
    exists (S run). split; [lia|]. split; [lia|]. split.
    + intros [|k] Hk; [now rewrite Nat.add_0_r|].
      replace (i + S k)%nat with (S i + k)%nat by lia. apply Hall. lia.
    + intros Hlt. replace (i + S run)%nat with (S i + run)%nat by lia.
      apply Hend. lia.
  - destruct (Nat.ltb_spec 0 i) as [_|]; [|lia].
    exists 0%nat. split; [lia|]. split; [lia|]. split.
    + intros k Hk. lia.
    + intros _. now rewrite Nat.add_0_r.
Qed.

Lemma streakLoop_today (readOn : nat -> bool) (todo : nat) :
  Home.streakLoop readOn (S todo) 0 0
  = if readOn 0%nat then Home.streakLoop readOn todo 1 1
    else Home.streakLoop readOn todo 1 0.
Proof. reflexivity. Qed.

(** X17.  The reading streak is the unbroken run of read days counted
    back from today when today is a read day, and from yesterday when it
    is not: every day of the run is a read day, the day before the run is
    not (within the 365 days looked at), and the streak is at most 365. *)
Theorem streak_is_run_of_read_days (readOn : nat -> bool) :
  let first := if readOn 0%nat then 0%nat else 1%nat in
  (Home.streak readOn <= 365)%nat /\
  (forall k, (k < Home.streak readOn)%nat -> readOn (first + k)%nat = true) /\
  ((first + Home.streak readOn < 365)%nat ->
   readOn (first + Home.streak readOn)%nat = false).
Proof.
  cbv zeta. unfold Home.streak. rewrite (streakLoop_today readOn 364).
  destruct (readOn 0%nat) eqn:E0.
  - destruct (streakLoop_run readOn 364 1 1 ltac:(lia))
      as (run & -> & Hle & Hall & Hend).
    split; [lia|]. split.
    + intros [|k] Hk; [exact E0|]. cbn [Nat.add]. apply (Hall k). lia.
    + intros Hlt. apply Hend. lia.
  - destruct (streakLoop_run readOn 364 1 0 ltac:(lia))
      as (run & -> & Hle & Hall & Hend).
    split; [lia|]. split.
    + intros k Hk. apply Hall. lia.
    + intros Hlt. apply Hend. lia.
Qed.

(** ** The audio address *)

Lemma substring_all (s : string) : String.substring 0 (String.length s) s = s.
Proof. induction s as [|c s IH]; cbn; [reflexivity | now rewrite IH]. Qed.

Lemma replace_absent (pattern replacement : string) (s : string) :
  includes pattern s = false -> replace pattern replacement s = s.
Proof.
  induction s as [|c s IH]; cbn [includes replace]; intros H;
    apply orb_false_iff in H as [Hp Hrest]; rewrite Hp; [reflexivity|].
  now rewrite IH.
Qed.

(** X18.  The address that is played is the address the backend named:
    for an [audio_url] of the form [/audio/<id>] the player gets
    [API_URL] followed by that very path, and an [audio_url] without
    [/audio/] in it is taken as the id itself. *)
Theorem audioAddress_keeps_backend_path (API_URL : string) :
  (forall id : string,
     PdfViewerScreen.audioAddress API_URL ("/audio/" ++ id)
       = (API_URL ++ "/audio/" ++ id)%string) /\
  (forall audio_url : string,
     includes "/audio/" audio_url = false ->
     PdfViewerScreen.audioAddress API_URL audio_url
       = (API_URL ++ "/audio/" ++ audio_url)%string).
Proof.
  split.
  - intros id. unfold PdfViewerScreen.audioAddress, PdfViewerScreen.getAudioUrl.
    do 2 f_equal. destruct id as [|c id]; [reflexivity|].
    cbn. rewrite ?Nat.sub_0_r. now rewrite substring_all.
  - intros audio_url H.
    unfold PdfViewerScreen.audioAddress. now rewrite replace_absent.
Qed.

(** ** The library of documents *)

Lemma In_without (pdfId : string) (p : Library.PdfItem)
    (prev : list Library.PdfItem) :
  In p (Library.without pdfId prev) <-> In p prev /\ Library.pdf_id p <> pdfId.
Proof.
  unfold Library.without. rewrite filter_In, negb_true_iff, String.eqb_neq.
  reflexivity.
Qed.

Lemma without_absent (pdfId : string) (prev : list Library.PdfItem) :
  (forall p, In p prev -> Library.pdf_id p <> pdfId) ->
  Library.without pdfId prev = prev.
Proof.
  induction prev as [|a prev IH]; intros H; [reflexivity|]. cbn.
  destruct (String.eqb_spec (Library.pdf_id a) pdfId) as [E|_]; cbn.
  - exfalso. apply (H a); [now left | exact E].
  - f_equal. apply IH. intros p Hp. apply H. now right.
Qed.

(** X19.  Deleting a document removes every entry with its id from the
    library and keeps the others; in the web client it also closes the
    confirmation, and the active document afterwards is never the deleted
    one: it is the document that was active before, or none. *)
Theorem delete_removes_document (pdf : Library.PdfItem) (st : Library.State) :
  let st' := Library.handleDelete pdf st in
  (forall p, In p (Library.pdfs st')
             <-> In p (Library.pdfs st)
                 /\ Library.pdf_id p <> Library.pdf_id pdf) /\
  (forall a, Library.activePdf st' = Some a ->
             Library.activePdf st = Some a
             /\ Library.pdf_id a <> Library.pdf_id pdf) /\
  (Library.activePdf st' = None ->
   Library.activePdf st = None
   \/ exists a, Library.activePdf st = Some a
                /\ Library.pdf_id a = Library.pdf_id pdf
                /\ Library.showPdfViewer st' = false) /\
  Library.deleteConfirm st' = None /\
  (forall (pdfId : string) (pdfs : list Library.PdfItem) (p : Library.PdfItem),
     In p (Library.mobile_handleDelete pdfId pdfs)
     <-> In p pdfs /\ Library.pdf_id p <> pdfId).
Proof.
  cbv zeta. split; [|split; [|split; [|split]]].
  - intros p. apply In_without.
  - intros a. unfold Library.handleDelete, Library.is_active. cbn.
    destruct (Library.activePdf st) as [b|]; [|discriminate].
    destruct (String.eqb_spec (Library.pdf_id b) (Library.pdf_id pdf));
      [discriminate|]. intros [= <-]. auto.
  - unfold Library.handleDelete, Library.is_active. cbn.
    destruct (Library.activePdf st) as [b|]; [|auto].
    destruct (String.eqb_spec (Library.pdf_id b) (Library.pdf_id pdf));
      [|discriminate]. intros _. right. eauto.
  - reflexivity.
  - intros pdfId pdfs p. apply In_without.
Qed.

(** X20.  An upload followed by the deletion of the uploaded document
    gives back the library as it was, when no document had that id: the
    upload appends the document, makes it active and resets the read page
    to 1, and the deletion leaves the earlier entries in their order and
    no document active. *)
Theorem upload_then_delete_restores (data : Library.Uploaded)
    (st : Library.State) :
  (forall p, In p (Library.pdfs st) ->
             Library.pdf_id p <> Library.up_pdf_id data) ->
  let uploaded := Library.handleUploadSuccess data st in
  let st' := Library.handleDelete (Library.newPdf data) uploaded in
  Library.pdfs uploaded = Library.pdfs st ++ [Library.newPdf data] /\
  Library.activePdf uploaded = Some (Library.newPdf data) /\
  Library.readPage uploaded = 1 /\
  Library.pdfs st' = Library.pdfs st /\
  Library.activePdf st' = None /\
  Library.mobile_handleDelete (Library.up_pdf_id data)
    (Library.mobile_handleUpload data (Library.pdfs st)) = Library.pdfs st.
Proof.
  intros Hfresh. cbv zeta.
  assert (Library.without (Library.up_pdf_id data)
            (Library.pdfs st ++ [Library.newPdf data]) = Library.pdfs st) as Hw.
  { unfold Library.without. rewrite List.filter_app. cbn.
    rewrite String.eqb_refl. cbn. rewrite app_nil_r.
    now apply without_absent. }
  split; [reflexivity|]. split; [reflexivity|]. split; [reflexivity|].
  split; [exact Hw|]. split; [|exact Hw].
  unfold Library.handleDelete, Library.is_active. cbn.
  now rewrite String.eqb_refl.
Qed.

Lemma upload_then_delete_restores_witness :
  let data := {| Library.up_pdf_id := "p2"; Library.up_filename := "b.pdf";
                 Library.up_total_pages := 12;
                 Library.up_thumbnail_url := None |} in
  let st := {| Library.pdfs :=
                 [ {| Library.pdf_id := "p1"; Library.filename := "a.pdf";
                      Library.total_pages := 3;
                      Library.thumbnail_url := None;
                      Library.current_page := Some 2 |} ];
               Library.activePdf := None; Library.readPage := 1;
               Library.showPdfViewer := false;
               Library.deleteConfirm := None |} in
  Library.pdfs (Library.handleDelete (Library.newPdf data)
                  (Library.handleUploadSuccess data st)) = Library.pdfs st.
Proof.
  cbv zeta.
  apply (upload_then_delete_restores
           {| Library.up_pdf_id := "p2"; Library.up_filename := "b.pdf";
              Library.up_total_pages := 12; Library.up_thumbnail_url := None |}
           {| Library.pdfs :=
                [ {| Library.pdf_id := "p1"; Library.filename := "a.pdf";
                     Library.total_pages := 3; Library.thumbnail_url := None;
                     Library.current_page := Some 2 |} ];
              Library.activePdf := None; Library.readPage := 1;
              Library.showPdfViewer := false; Library.deleteConfirm := None |}).
  intros p [<-|[]]. cbn. discriminate.
Defined.

(** ** The two clients over a whole playback *)

Lemma position_steps_agree (m : Mobile.State) (w : Web.State) (t : Q) :
  same_highlight m w ->
  match Mobile.trackWordEffect m (t * 1000)%Q,
        Web.handleTimeUpdate (Some t) w with
  | Ret (m', em), Ret (w', ew) =>
    same_highlight m' w' /\ published em = published ew
  | Throw, Throw => True
  | OutOfFuel, OutOfFuel => True
  | _, _ => False
  end.
Proof.
  intros (HT & Href & Hidx).
  unfold Mobile.trackWordEffect, Web.handleTimeUpdate. cbv zeta.
  rewrite web_findWordIndex_eq, <- HT, <- Href.
  destruct (len (Mobile.wordTimingsRef m) =? 0).
  { repeat split; assumption. }
  destruct (Mobile.findWordIndex (Mobile.wordTimingsRef m) (t * 1000)%Q)
    as [idx| |]; cbn [bind]; [|exact I..].
  destruct (idx =? Mobile.currentWordRef m); cbn [negb fst snd];
    repeat split; cbn; assumption.
Qed.

(** X21.  Over a whole playback the two clients publish the same index
    changes: from components that show the same segment with the same
    word published, any sequence of audio times makes the web page and
    the mobile reader (fed the same times in milliseconds) publish the
    same list of indices and end showing the same word. *)
Theorem playback_traces_agree (times : list Q) :
  forall (m : Mobile.State) (w : Web.State),
    same_highlight m w ->
    match Mobile.trackAll m (List.map (fun t => t * 1000)%Q times),
          Web.trackAll w times with
    | Ret (m', em), Ret (w', ew) =>
      same_highlight m' w' /\ published em = published ew
    | Throw, Throw => True
    | OutOfFuel, OutOfFuel => True
    | _, _ => False
    end.
Proof.
  induction times as [|t times IH]; intros m w Hsame.
  { cbn. split; [assumption | reflexivity]. }
  cbn [List.map Mobile.trackAll Web.trackAll].
  pose proof (position_steps_agree m w t Hsame) as Hstep.
  destruct (Mobile.trackWordEffect m (t * 1000)%Q) as [[m1 em1]| |],
    (Web.handleTimeUpdate (Some t) w) as [[w1 ew1]| |];
    cbn [bind fst snd]; try contradiction; try exact I.
  destruct Hstep as [Hsame1 Hpub1].
  specialize (IH m1 w1 Hsame1).
  destruct (Mobile.trackAll m1 (List.map (fun t0 => t0 * 1000)%Q times))
    as [[m2 em2]| |],
    (Web.trackAll w1 times) as [[w2 ew2]| |];
    cbn [bind fst snd]; try contradiction; try exact I.
  destruct IH as [Hsame2 Hpub2]. split; [assumption|].
  rewrite !published_app. congruence.
Qed.

Lemma playback_traces_agree_witness :
  same_highlight (Mobile.handleRead segment1 Mobile.initial)
                 (Web.handleRead segment1 Web.initial) /\
  match Mobile.trackAll (Mobile.handleRead segment1 Mobile.initial)
          (List.map (fun t => t * 1000)%Q [0.1; 0.15; 0.15; 0.6]%Q),
        Web.trackAll (Web.handleRead segment1 Web.initial)
          [0.1; 0.15; 0.15; 0.6]%Q with
  | Ret (m', em), Ret (w', ew) =>
    same_highlight m' w' /\ published em = published ew
  | Throw, Throw => True
  | OutOfFuel, OutOfFuel => True
  | _, _ => False
  end.
Proof.
  split; [repeat split|].
  apply (playback_traces_agree [0.1; 0.15; 0.15; 0.6]%Q
           (Mobile.handleRead segment1 Mobile.initial)
           (Web.handleRead segment1 Web.initial)).
  repeat split.
Defined.

(** ** The web page over time *)

(** X22.  The web page never highlights a word that is not there: in
    every reachable state the published index is [-1] or an index of the
    timings on show, every segment on show has at most [2^30] words, and
    while a [handleRead] is under way there are no timings and no word is
    published. *)
Theorem web_highlight_always_valid (s : WebSession.Session) :
  WebSession.reachable s ->
  let st := WebSession.page s in
  (Web.currentWordIndex st = -1
   \/ 0 <= Web.currentWordIndex st <= len (Web.wordTimings st) - 1) /\
  fits (Web.wordTimings st) /\
  (WebSession.loading s = true ->
   Web.wordTimings st = [] /\ Web.currentWordIndex st = -1).
Proof.
  unfold WebSession.reachable. intros Hreach. cbv zeta.
  assert (Hinit :
    (Web.currentWordIndex (WebSession.page WebSession.initial) = -1
     \/ 0 <= Web.currentWordIndex (WebSession.page WebSession.initial)
        <= len (Web.wordTimings (WebSession.page WebSession.initial)) - 1) /\
    fits (Web.wordTimings (WebSession.page WebSession.initial)) /\
    (WebSession.loading WebSession.initial = true ->
     Web.wordTimings (WebSession.page WebSession.initial) = [] /\
     Web.currentWordIndex (WebSession.page WebSession.initial) = -1)).
  { cbn. split; [now left|]. split; [unfold fits, len; cbn; lia | discriminate]. }
  induction Hreach as [|x y z Hstep _ IH]; [assumption|].
  apply IH. clear IH. destruct Hinit as (Hidx & Hfits & Hload).
  destruct Hstep as [audio s st' es Hrun|s|i el s|b s|b s|audio s|s Hl|data s Hl Hf|s Hl];
    cbn [WebSession.page WebSession.loading] in *.
  - destruct audio as [t|]; [|injection Hrun as <- _; auto].
    assert (Web.wordTimings (WebSession.page s) = []
            \/ Web.wordTimings (WebSession.page s) <> []) as [ET|Hne]
      by (destruct (Web.wordTimings (WebSession.page s));
          [now left | right; discriminate]).
    { unfold Web.handleTimeUpdate in Hrun. rewrite ET in Hrun. cbn in Hrun.
      injection Hrun as <- _. auto. }
    destruct (WebSession.loading s) eqn:El.
    + destruct (Hload eq_refl) as [E _]. congruence.
    + assert (exists idx,
                Web.findWordIndex (Web.wordTimings (WebSession.page s))
                  (t * 1000)%Q = Ret idx) as [idx Hidx'].
      { unfold Web.handleTimeUpdate in Hrun. cbv zeta in Hrun.
        destruct (Z.eqb_spec (len (Web.wordTimings (WebSession.page s))) 0)
          as [He|_]; [now apply len_nil_iff in He|].
        destruct (Web.findWordIndex _ _) as [idx| |]; cbn in Hrun;
          (discriminate || eauto). }
      assert (-1 <= idx <= len (Web.wordTimings (WebSession.page s)) - 1) as Hr.
      { destruct (findWordIndex_fuel_returns
                    (iterations (Web.wordTimings (WebSession.page s)))
                    (Web.wordTimings (WebSession.page s)) (t * 1000)%Q Hfits
                    ltac:(lia)) as (r & Hr & _ & Hin).
        rewrite web_findWordIndex_eq in Hidx'.
        unfold Mobile.findWordIndex in Hidx'. rewrite Hr in Hidx'.
        injection Hidx' as <-.
        destruct (Z.eq_dec r (-1)); [|specialize (Hin n)]; unfold len in *; lia. }
      destruct (handleTimeUpdate_step _ t idx Hidx')
        as [[E Hnil]|[(E & Hsame & _)|(E & Hd & _)]]; rewrite E in Hrun;
        injection Hrun as <- _; cbn; try contradiction.
      * split; [assumption|]. split; [assumption | discriminate].
      * split; [lia|]. split; [assumption | discriminate].
  - split; [now left|]. split; [assumption|]. intros Hl.
    destruct (Hload Hl) as [E _]. auto.
  - auto.
  - auto.
  - auto.
  - split; [now left|]. split; [unfold fits, len; cbn; lia | auto].
  - split; [now left|]. split; [unfold fits, len; cbn; lia | auto].
  - destruct (Hload Hl) as [_ E]. unfold Web.handleRead_resolved. cbn.
    rewrite E. split; [now left|]. split; [assumption | discriminate].
  - split; [assumption|]. split; [assumption | discriminate].
Qed.

Lemma web_session_sample_reachable :
  WebSession.reachable
    {| WebSession.page :=
         Web.set_audioCurrentTime 0.25
           (Web.set_currentWordIndex 1 (Web.handleRead segment1 Web.initial));
       WebSession.loading := false |}.
Proof.
  unfold WebSession.reachable.
  eapply rtc_l; [apply WebSession.step_read_begin; reflexivity|].
  eapply rtc_l;
    [apply (WebSession.step_read_resolved segment1);
     [reflexivity | unfold fits, len; cbn; lia]|].
  eapply rtc_l;
    [apply (WebSession.step_time (Some 0.25%Q) _
              (Web.set_audioCurrentTime 0.25
                 (Web.set_currentWordIndex 1 (Web.handleRead segment1 Web.initial)))
              [SetCurrentWordIndex 1]); reflexivity|].
  apply rtc_refl.
Defined.

Lemma web_highlight_always_valid_witness :
  Web.currentWordIndex
    (Web.set_audioCurrentTime 0.25
       (Web.set_currentWordIndex 1 (Web.handleRead segment1 Web.initial))) = -1
  \/ 0 <= Web.currentWordIndex
            (Web.set_audioCurrentTime 0.25
               (Web.set_currentWordIndex 1 (Web.handleRead segment1 Web.initial)))
       <= len scenario1 - 1.
Proof.
  apply (web_highlight_always_valid _ web_session_sample_reachable).
Defined.

(** X23.  A click inside the web timeline never seeks outside the track:
    for a bar of positive width and a click between its two ends, the
    time assigned to the audio element lies between 0 and the duration;
    nothing is assigned while there is no audio element or the duration is
    0. *)
Theorem web_timeline_click_within_track (audioDuration clientX rect_left
    rect_width : Q) :
  (0 < rect_width)%Q -> (0 < audioDuration)%Q ->
  (rect_left <= clientX <= rect_left + rect_width)%Q ->
  (exists t,
     web_timeline_click true audioDuration clientX rect_left rect_width = Some t
     /\ (0 <= t <= audioDuration)%Q) /\
  web_timeline_click false audioDuration clientX rect_left rect_width = None /\
  web_timeline_click true 0 clientX rect_left rect_width = None.
Proof.
  intros Hw Hd Hx. split; [|split; reflexivity].
  unfold web_timeline_click. cbn [negb orb].
  destruct (strict_eq_spec audioDuration 0) as [E|_]; [lra|].
  eexists. split; [reflexivity|].
  assert (0 <= (clientX - rect_left) / rect_width)%Q as Hlow
    by (apply Qle_shift_div_l; lra).
  assert ((clientX - rect_left) / rect_width <= 1)%Q as Hhigh
    by (apply Qle_shift_div_r; lra).
  set (pct := ((clientX - rect_left) / rect_width)%Q) in *.
  assert (0 <= pct * audioDuration)%Q by (apply Qmult_le_0_compat; lra).
  assert (0 <= (1 - pct) * audioDuration)%Q by (apply Qmult_le_0_compat; lra).
  lra.
Qed.

Lemma web_timeline_click_within_track_witness :
  (exists t,
     web_timeline_click true 90 250 100 300 = Some t /\ (0 <= t <= 90)%Q) /\
  web_timeline_click false 90 250 100 300 = None /\
  web_timeline_click true 0 250 100 300 = None.
Proof.
  apply (web_timeline_click_within_track 90 250 100 300);
    [reflexivity | reflexivity | split; unfold Qle; cbn; lia].
Defined.

(** ** The backend proxy *)

(** X24.  The proxy hands on no header but [Authorization] and
    [Content-Type], each with the value the request carried; a request
    with neither is handed on without headers; a [GET] or [HEAD] request
    is handed on without a body; and a form upload is handed on without
    its [Content-Type], so that the boundary can be set anew. *)
Theorem proxy_forwards_two_headers (req : Proxy.Request) :
  (forall name value,
     In (name, value) (fst (Proxy.forwarded req)) ->
     name = "Authorization"%string
       /\ Proxy.get "authorization" (Proxy.req_headers req) = Some value
     \/ name = "Content-Type"%string
       /\ Proxy.get "content-type" (Proxy.req_headers req) = Some value) /\
  (Proxy.get "authorization" (Proxy.req_headers req) = None ->
   Proxy.get "content-type" (Proxy.req_headers req) = None ->
   fst (Proxy.forwarded req) = []) /\
  (Proxy.method req = "GET"%string \/ Proxy.method req = "HEAD"%string ->
   snd (Proxy.forwarded req) = Proxy.NoBody) /\
  (snd (Proxy.forwarded req) = Proxy.FormBody ->
   forall value, ~ In ("Content-Type"%string, value) (fst (Proxy.forwarded req))).
Proof.
  unfold Proxy.forwarded. cbv zeta.
  set (auth := Proxy.get "authorization" (Proxy.req_headers req)).
  set (ct := Proxy.get "content-type" (Proxy.req_headers req)).
  set (headers :=
         (if Proxy.truthy auth then [("Authorization"%string, default ""%string auth)]
          else [])
         ++ (if Proxy.truthy ct then [("Content-Type"%string, default ""%string ct)]
             else [])).
  assert (Hin : forall name value, In (name, value) headers ->
            name = "Authorization"%string /\ auth = Some value
            \/ name = "Content-Type"%string /\ ct = Some value).
  { intros name value H. unfold headers in H. apply in_app_or in H as [H|H].
    - destruct auth as [a|]; cbn in H; [|destruct H].
      destruct a; cbn in H; [destruct H|]. destruct H as [[= <- <-]|[]]. auto.
    - destruct ct as [c|]; cbn in H; [|destruct H].
      destruct c; cbn in H; [destruct H|]. destruct H as [[= <- <-]|[]]. auto. }
  split; [|split; [|split]].
  - intros name value H. apply Hin.
    destruct (negb (Proxy.method req =? "GET")%string
              && negb (Proxy.method req =? "HEAD")%string); [|exact H].
    destruct (match ct with Some c => includes "multipart/form-data" c
                       | None => false end); [|exact H].
    cbn [fst] in H. apply filter_In in H as [H _]. exact H.
  - intros Ha Hc. unfold headers. rewrite Ha, Hc. cbn.
    destruct (negb _ && negb _); reflexivity.
  - intros [->| ->]; reflexivity.
  - destruct (negb (Proxy.method req =? "GET")%string
              && negb (Proxy.method req =? "HEAD")%string); [|discriminate].
    destruct (match ct with Some c => includes "multipart/form-data" c
                       | None => false end); [|discriminate].
    intros _ value H. cbn [fst] in H. apply filter_In in H as [_ H].
    cbn in H. discriminate.
Qed.

(** ** Checks on sample inputs *)

Example formatTime_mobile_sample : PdfViewerScreen.formatTime 61500 = "1:01"%string.
Proof. reflexivity. Qed.

Example formatTime_web_sample : Home.formatTime 3599.99 = "59:59"%string.
Proof. reflexivity. Qed.

Example toggle_twice_sample :
  Home.toggleFavorite "b" (Home.toggleFavorite "b" ["a"; "b"; "c"]%string)
  = ["a"; "c"; "b"]%string.
Proof. reflexivity. Qed.

Example streak_sample :
  Home.streak (fun i => (0 <? i)%nat && (i <? 4)%nat) = 3%nat.
Proof. reflexivity. Qed.

Example proxy_sample :
  Proxy.forwarded
    {| Proxy.method := "POST";
       Proxy.req_headers :=
         [("cookie", "k=v"); ("authorization", "Bearer t");
          ("content-type", "multipart/form-data; boundary=x")]%string |}
  = ([("Authorization", "Bearer t")]%string, Proxy.FormBody).
Proof. reflexivity. Qed.
